(** * Cellular-automaton simulator (src/index.tsx): a shallow embedding

    The simulator keeps a 2D grid of cell ages and a 1D history of binary
    rows in mutable refs, advances them with [step], seeds them with
    [initGrid], lets the pointer flip cells ([handleCanvasInteraction]) and
    maps cells to colours ([getCellColor]).  JavaScript numbers that the
    program only ever uses as integers are modelled by [Z]; the row arrays of
    the 2D grid are mutated in place by the pointer handler, so they live in
    a store indexed by array identity. *)

From Stdlib Require Import ZArith List Lia String Ascii Bool.
From stdpp Require Import base list gmap strings.

Open Scope Z_scope.

(** ** JavaScript primitives used by the program *)

Module JS.

(** A value read out of a [number[]]: a number, [NaN] (what [Number]
    gives on a non-numeric string) or [undefined] (what an index outside
    the array gives). *)
Inductive jsval : Type :=
| Num (n : Z)
| NaN
| Undefined.

(** The outcome of a handler: it returns, or it throws a [TypeError]. *)
Inductive result (A : Type) : Type :=
| Ok (a : A)
| TypeError.
Arguments Ok {A} a.
Arguments TypeError {A}.

(** [ToInt32]: the operand conversion of [<<] and [|]. *)
Definition wrap32 (n : Z) : Z := (n + 2 ^ 31) mod 2 ^ 32 - 2 ^ 31.

Definition toInt32 (v : jsval) : Z :=
  match v with
  | Num n => wrap32 n
  | NaN | Undefined => 0
  end.

(** [a << k] for a literal shift count [k] below 32. *)
Definition shl (a : jsval) (k : Z) : Z := wrap32 (Z.shiftl (toInt32 a) k).

(** [a | b] on operands that are already 32-bit integers. *)
Definition bor (a b : Z) : Z := Z.lor a b.

(** [a % b]: the remainder takes the sign of the dividend; [None] is the
    [NaN] of a zero divisor. *)
Definition rem (a b : Z) : option Z :=
  if b =? 0 then None else Some (Z.rem a b).

(** [arr[i]] for a numeric index: [None] is [undefined]. *)
Definition index {A : Type} (arr : list A) (i : Z) : option A :=
  if i <? 0 then None else arr !! Z.to_nat i.

(** [arr[i]] where the index may itself be [NaN]. *)
Definition index_opt {A : Type} (arr : list A) (i : option Z) : option A :=
  match i with
  | Some i => index arr i
  | None => None
  end.

(** A read from a [number[]] as a value. *)
Definition read (arr : list jsval) (i : option Z) : jsval :=
  default Undefined (index_opt arr i).

(** [arr[i] = v]: an index at or past the end extends the array, the gap
    being filled with holes that read as [undefined]. *)
Definition array_set (arr : list jsval) (i : nat) (v : jsval) : list jsval :=
  if (i <? length arr)%nat then <[i := v]> arr
  else arr ++ replicate (i - length arr) Undefined ++ [v].

(** [Math.ceil(a / b)] and [Math.floor(a / b)] for integers and a
    positive divisor. *)
Definition ceil_div (a : Z) (b : positive) : Z := - ((- a) / Z.pos b).
Definition floor_div (a : Z) (b : positive) : Z := a / Z.pos b.

(** [n.toString(2)] on an integer: binary digits, most significant first,
    with a minus sign for a negative number. *)
Fixpoint pos_digits2 (p : positive) : list ascii :=
  match p with
  | xH => ["1"%char]
  | xO q => pos_digits2 q ++ ["0"%char]
  | xI q => pos_digits2 q ++ ["1"%char]
  end.

Definition toString2 (n : Z) : string :=
  string_of_list_ascii
    match n with
    | Z0 => ["0"%char]
    | Zpos p => pos_digits2 p
    | Zneg p => "-"%char :: pos_digits2 p
    end.

(** [s.padStart(len, c)] for a one-character filler. *)
Definition padStart (len : nat) (c : ascii) (s : string) : string :=
  string_of_list_ascii (replicate (len - String.length s) c) +:+ s.

(** [s.split('')]: the characters of the string. *)
Definition split_chars (s : string) : list ascii := list_ascii_of_string s.

(** [Number(c)] on a one-character string: a decimal digit is its value,
    any other character that [toString] can produce is [NaN]. *)
Definition Number (c : ascii) : jsval :=
  let n := Z.of_nat (nat_of_ascii c) in
  if (48 <=? n) && (n <=? 57) then Num (n - 48) else NaN.

End JS.

Import JS.

(** ** Types (src/index.tsx, lines 6-19) *)

Inductive Mode : Type := OneD | TwoD.
Inductive ColorMode : Type := Classic | Age | Density | Cycle.

(** The resolution slider ranges over 2..32 and is the divisor of every
    pixel-to-cell conversion, hence [positive].  [trails] only feeds the
    canvas and is left out. *)
Record Config : Type := {
  mode : Mode;
  rule1D : Z;
  birth2D : list Z;
  survival2D : list Z;
  resolution : positive;
  speed : Z;
  hue : Z;
  colorMode : ColorMode
}.

(** ** Utilities (lines 34-36) *)

Definition getRuleBits (rule : Z) : list jsval :=
  map Number (rev (split_chars (padStart 8 "0"%char (toString2 rule)))).

(** ** Presets (lines 23-30) *)

Record Preset : Type := {
  pmode : Mode;
  pbirth : option (list Z);
  psurvival : option (list Z);
  prule : option Z
}.

Definition GOL : Preset :=
  {| pmode := TwoD; pbirth := Some [3]; psurvival := Some [2; 3]; prule := None |}.
Definition HIGHLIFE : Preset :=
  {| pmode := TwoD; pbirth := Some [3; 6]; psurvival := Some [2; 3]; prule := None |}.
Definition MAZE : Preset :=
  {| pmode := TwoD; pbirth := Some [3]; psurvival := Some [1; 2; 3; 4; 5]; prule := None |}.
Definition RULE30 : Preset :=
  {| pmode := OneD; pbirth := None; psurvival := None; prule := Some 30 |}.
Definition RULE110 : Preset :=
  {| pmode := OneD; pbirth := None; psurvival := None; prule := Some 110 |}.
Definition RULE90 : Preset :=
  {| pmode := OneD; pbirth := None; psurvival := None; prule := Some 90 |}.

(** ** The component's state (lines 41-63)

    [generation] is the React state cell, always updated either to [0] or
    by the functional update [g => g + 1].  [gridRef] holds the outer array
    of the 2D grid: it is only ever replaced, never mutated, so it is a
    list of row identities; the rows themselves are mutated in place by the
    pointer handler and live in [rowStore].  The history and its rows are
    never shared. *)

Definition loc : Type := nat.

Record Window : Type := { innerWidth : N; innerHeight : N }.

Record State : Type := {
  config : Config;
  activePreset : option string;
  generation : Z;
  rowStore : gmap loc (list Z);
  gridRef : list loc;
  historyRef : list (list jsval);
  cycleHueRef : Z
}.

Definition initialConfig : Config :=
  {| mode := TwoD; rule1D := 110; birth2D := [3]; survival2D := [2; 3];
     resolution := 8%positive; speed := 15; hue := 180; colorMode := Age |}.

(** The state at mount, before the first effect has run. *)
Definition mountState : State :=
  {| config := initialConfig; activePreset := Some "GOL"%string;
     generation := 0; rowStore := ∅; gridRef := []; historyRef := [];
     cycleHueRef := 0 |}.

Definition setConfig (c : Config) (st : State) : State :=
  {| config := c; activePreset := activePreset st;
     generation := generation st; rowStore := rowStore st;
     gridRef := gridRef st; historyRef := historyRef st;
     cycleHueRef := cycleHueRef st |}.

Definition setActivePreset (p : option string) (st : State) : State :=
  {| config := config st; activePreset := p;
     generation := generation st; rowStore := rowStore st;
     gridRef := gridRef st; historyRef := historyRef st;
     cycleHueRef := cycleHueRef st |}.

Definition setGeneration (f : Z → Z) (st : State) : State :=
  {| config := config st; activePreset := activePreset st;
     generation := f (generation st); rowStore := rowStore st;
     gridRef := gridRef st; historyRef := historyRef st;
     cycleHueRef := cycleHueRef st |}.

Definition setGrid (h : gmap loc (list Z)) (g : list loc) (st : State) : State :=
  {| config := config st; activePreset := activePreset st;
     generation := generation st; rowStore := h;
     gridRef := g; historyRef := historyRef st;
     cycleHueRef := cycleHueRef st |}.

Definition setHistory (hist : list (list jsval)) (st : State) : State :=
  {| config := config st; activePreset := activePreset st;
     generation := generation st; rowStore := rowStore st;
     gridRef := gridRef st; historyRef := hist;
     cycleHueRef := cycleHueRef st |}.

Definition setCycleHue (c : Z) (st : State) : State :=
  {| config := config st; activePreset := activePreset st;
     generation := generation st; rowStore := rowStore st;
     gridRef := gridRef st; historyRef := historyRef st;
     cycleHueRef := c |}.

(** The row array behind an identity, and the grid as the program reads it
    through [gridRef.current]. *)
Definition rowAt (h : gmap loc (list Z)) (l : loc) : list Z := default [] (h !! l).

Definition gridOf (st : State) : list (list Z) := rowAt (rowStore st) <$> gridRef st.

(** Creating the row arrays of a new grid: every row is a new array. *)
Fixpoint allocRows (h : gmap loc (list Z)) (rows : list (list Z))
  : gmap loc (list Z) * list loc :=
  match rows with
  | [] => (h, [])
  | r :: rs =>
      let l := fresh (dom h) in
      let '(h', ls) := allocRows (<[l := r]> h) rs in
      (h', l :: ls)
  end.

(** ** initGrid (lines 66-82)

    [rnd y x] says whether the draw [Math.random() > 0.85] made for cell
    [(y, x)] succeeded.  Clearing the canvas is not modelled. *)

Definition seedGrid (rnd : nat → nat → bool) (rows cols : Z) : list (list Z) :=
  (λ y, (λ x, if rnd y x then 1 else 0) <$> seq 0 (Z.to_nat cols))
    <$> seq 0 (Z.to_nat rows).

Definition firstRow (cols : Z) : list jsval :=
  array_set (replicate (Z.to_nat cols) (Num 0)) (Z.to_nat (cols / 2)) (Num 1).

Definition initGrid (rnd : nat → nat → bool) (win : Window)
    (m : Mode) (res : positive) (st : State) : State :=
  let cols := ceil_div (Z.of_N (innerWidth win)) res in
  let rows := ceil_div (Z.of_N (innerHeight win)) res in
  let st' :=
    match m with
    | TwoD =>
        let '(h, ls) := allocRows (rowStore st) (seedGrid rnd rows cols) in
        setGrid h ls st
    | OneD => setHistory [firstRow cols] st
    end in
  setGeneration (λ _, 0) st'.

(** ** step (lines 92-135) *)

(** [gridRef.current[ny][nx] > 0].  The row index is always in range (it is
    a remainder by the positive row count); a column index that is out of
    range or [NaN] reads [undefined], which is not [> 0]. *)
Definition aliveAt (g : list (list Z)) (ny nx : option Z) : bool :=
  match index_opt g ny ≫= (λ row, index_opt row nx) with
  | Some a => 0 <? a
  | None => false
  end.

(** The two nested [for] loops over [i] and [j]. *)
Definition countNeighbors (g : list (list Z)) (rows cols y x : Z) : Z :=
  foldl (λ n i,
    foldl (λ n j,
      if (i =? 0) && (j =? 0) then n
      else if aliveAt g (rem (y + i + rows) rows) (rem (x + j + cols) cols)
           then n + 1 else n)
      n [-1; 0; 1])
    0 [-1; 0; 1].

(** [arr.includes(n)] on integers. *)
Definition includes (arr : list Z) (n : Z) : bool := existsb (Z.eqb n) arr.

Definition nextAge (c : Config) (age neighbors : Z) : Z :=
  if 0 <? age then
    if includes (survival2D c) neighbors then Z.min (age + 1) 100 else 0
  else
    if includes (birth2D c) neighbors then 1 else 0.

Definition nextGrid (c : Config) (g : list (list Z)) : list (list Z) :=
  let rows := Z.of_nat (length g) in
  let cols := Z.of_nat (length (default [] (head g))) in
  imap (λ y row,
    imap (λ x age,
      nextAge c age (countNeighbors g rows cols (Z.of_nat y) (Z.of_nat x)))
      row)
    g.

Definition patternIndex (left center right : jsval) : Z :=
  bor (bor (shl left 2) (shl center 1)) (toInt32 right).

Definition nextRow (bits current : list jsval) : list jsval :=
  let cols := Z.of_nat (length current) in
  imap (λ i _,
    let left := read current (rem (Z.of_nat i - 1 + cols) cols) in
    let center := read current (Some (Z.of_nat i)) in
    let right := read current (rem (Z.of_nat i + 1) cols) in
    read bits (Some (patternIndex left center right)))
    current.

(** The two updates that close every completed step. *)
Definition tick (st : State) : State :=
  setCycleHue (Z.rem (cycleHueRef st + 1) 360) (setGeneration (λ g, g + 1) st).

Definition step (win : Window) (st : State) : result State :=
  match mode (config st) with
  | TwoD =>
      let g := gridOf st in
      if (length g =? 0)%nat then Ok st
      else
        let '(h, ls) := allocRows (rowStore st) (nextGrid (config st) g) in
        Ok (tick (setGrid h ls st))
  | OneD =>
      let bits := getRuleBits (rule1D (config st)) in
      match last (historyRef st) with
      | None => TypeError
      | Some current =>
          let pushed := historyRef st ++ [nextRow bits current] in
          let maxRows := ceil_div (Z.of_N (innerHeight win)) (resolution (config st)) in
          let hist := if Z.of_nat (length pushed) >? maxRows then tail pushed else pushed in
          Ok (tick (setHistory hist st))
      end
  end.

(** [k] consecutive calls of [step]. *)
Fixpoint steps (win : Window) (k : nat) (st : State) : result State :=
  match k with
  | O => Ok st
  | S k' =>
      match step win st with
      | Ok st' => steps win k' st'
      | TypeError => TypeError
      end
  end.

(** ** getCellColor (lines 137-158)

    The result is the string [hsla(h, s%, l%, 0.9)]; its four components
    are kept apart, the constant alpha as the literal it is written with. *)

Record Color : Type := {
  colorHue : Z;
  colorSaturation : Z;
  colorLightness : Z;
  colorAlpha : string
}.

Definition getCellColor (c : Config) (cycleHue age neighbors : Z) : Color :=
  let '(h, l) :=
    match colorMode c with
    | Age => (Z.rem (hue c + age * 8) 360,
              if age =? 1 then 85 else Z.max 40 (70 - age))
    | Density => (Z.rem (hue c - neighbors * 25) 360, 40 + neighbors * 5)
    | Cycle => (cycleHue, 60)
    | Classic => (hue c, 60)
    end in
  {| colorHue := h; colorSaturation := 80; colorLightness := l;
     colorAlpha := "0.9" |}.

(** ** handleCanvasInteraction (lines 217-234)

    [px] and [py] are the pointer's offsets [clientX - rect.left] and
    [clientY - rect.top] in whole pixels.  The handler is attached to the
    canvas, so [canvasRef.current] is set whenever it runs. *)

Definition handleCanvasInteraction (px py : Z) (st : State) : State :=
  match mode (config st) with
  | OneD => st
  | TwoD =>
      let x := floor_div px (resolution (config st)) in
      let y := floor_div py (resolution (config st)) in
      match index (gridRef st) y with
      | None => st
      | Some l =>
          let row := rowAt (rowStore st) l in
          match index row x with
          | None => st
          | Some age =>
              let newGrid := gridRef st in
              let row' := <[Z.to_nat x := if 0 <? age then 0 else 1]> row in
              setActivePreset None (setGrid (<[l := row']> (rowStore st)) newGrid st)
          end
      end
  end.

(** ** selectPreset (lines 236-248) *)

Definition selectPreset (rnd : nat → nat → bool) (win : Window)
    (key : string) (p : Preset) (st : State) : State :=
  let c := config st in
  let newCfg :=
    match pmode p, pbirth p, psurvival p, prule p with
    | TwoD, Some b, Some s, _ =>
        {| mode := TwoD; rule1D := rule1D c; birth2D := b; survival2D := s;
           resolution := resolution c; speed := speed c; hue := hue c;
           colorMode := colorMode c |}
    | OneD, _, _, Some r =>
        {| mode := OneD; rule1D := r; birth2D := birth2D c;
           survival2D := survival2D c; resolution := resolution c;
           speed := speed c; hue := hue c; colorMode := colorMode c |}
    | m, _, _, _ =>
        {| mode := m; rule1D := rule1D c; birth2D := birth2D c;
           survival2D := survival2D c; resolution := resolution c;
           speed := speed c; hue := hue c; colorMode := colorMode c |}
    end in
  initGrid rnd win (pmode p) (resolution c)
    (setActivePreset (Some key) (setConfig newCfg st)).

(** ** States the program can be in *)

Inductive reachable : State → Prop :=
| reach_mount : reachable mountState
| reach_setConfig c st : reachable st → reachable (setConfig c st)
| reach_setActivePreset p st : reachable st → reachable (setActivePreset p st)
| reach_initGrid rnd win m res st :
    reachable st → reachable (initGrid rnd win m res st)
| reach_step win st st' : reachable st → step win st = Ok st' → reachable st'
| reach_interaction px py st :
    reachable st → reachable (handleCanvasInteraction px py st).

(** ** Notions the specification is phrased in *)

(** The age of cell [(y, x)], read as [0] outside the grid. *)
Definition cell (g : list (list Z)) (y x : nat) : Z :=
  default 0 (g !! y ≫= (.!! x)).

Definition rectangular (cols : nat) (g : list (list Z)) : Prop :=
  Forall (λ row, length row = cols) g.

(** Wrap-around of a coordinate on a ring of [n] positions. *)
Definition torus (n : nat) (i : Z) : nat := Z.to_nat (i mod Z.of_nat n).

(** The eight offsets of the Moore neighbourhood. *)
Definition mooreOffsets : list (Z * Z) :=
  [(-1, -1); (-1, 0); (-1, 1); (0, -1); (0, 1); (1, -1); (1, 0); (1, 1)].

(** The toroidal Moore neighbour count of cell [(y, x)] in a grid of
    [rows] by [cols] cells. *)
Definition mooreCount (g : list (list Z)) (rows cols y x : nat) : Z :=
  Z.of_nat (length (filter
    (λ d, 0 < cell g (torus rows (Z.of_nat y + d.1)) (torus cols (Z.of_nat x + d.2)))
    mooreOffsets)).

(** The bound on the history: [Math.ceil(window.innerHeight / resolution)]. *)
Definition historyBound (win : Window) (res : positive) : Z :=
  ceil_div (Z.of_N (innerHeight win)) res.

(** Generation [k] of the 1D automaton started from [row]. *)
Definition generationRow (bits row : list jsval) (k : nat) : list jsval :=
  Nat.iter k (nextRow bits) row.

(** A row of binary cells. *)
Definition binary (row : list Z) : Prop := Forall (λ x, x = 0 ∨ x = 1) row.

(** Cell [(y, x)] lies inside the grid. *)
Definition inBounds (g : list (list Z)) (y x : Z) : Prop :=
  0 ≤ y < Z.of_nat (length g)
  ∧ 0 ≤ x < Z.of_nat (length (default [] (g !! Z.to_nat y))).

(** Every age lies in 0..100. *)
Definition agesBounded (g : list (list Z)) : Prop :=
  Forall (Forall (λ a, 0 ≤ a ≤ 100)) g.

(** The first [n] generations, oldest first. *)
Definition generations (bits row : list jsval) (n : nat) : list (list jsval) :=
  generationRow bits row <$> seq 0 n.

(** A row of integers as the row of numbers the history stores. *)
Definition numRow (row : list Z) : list jsval := Num <$> row.

(** Rule 90 as the specification words it: on a ring, every cell becomes
    the exclusive or of its two neighbours. *)
Definition xorRow (row : list Z) : list Z :=
  let n := length row in
  imap (λ i _,
    Z.lxor (default 0 (row !! torus n (Z.of_nat i - 1)))
           (default 0 (row !! torus n (Z.of_nat i + 1))))
    row.

(** The first eight rows of the Sierpinski triangle on a ring of 15 cells,
    grown from the single live cell at index 7. *)
Definition sierpinski15 : list (list Z) :=
  [ [0;0;0;0;0;0;0;1;0;0;0;0;0;0;0];
    [0;0;0;0;0;0;1;0;1;0;0;0;0;0;0];
    [0;0;0;0;0;1;0;0;0;1;0;0;0;0;0];
    [0;0;0;0;1;0;1;0;1;0;1;0;0;0;0];
    [0;0;0;1;0;0;0;0;0;0;0;1;0;0;0];
    [0;0;1;0;1;0;0;0;0;0;1;0;1;0;0];
    [0;1;0;0;0;1;0;0;0;1;0;0;0;1;0];
    [1;0;1;0;1;0;1;0;1;0;1;0;1;0;1] ].

(** What [step] leaves in the history: the next row pushed, and the oldest
    row shifted out when the length exceeds the bound. *)
Definition advance (bound : Z) (bits : list jsval)
    (hist : list (list jsval)) (current : list jsval) : list (list jsval) :=
  let pushed := hist ++ [nextRow bits current] in
  if Z.of_nat (length pushed) >? bound then tail pushed else pushed.

(** ** Example states *)

(** A 40 by 40 pixel viewport: 5 by 5 cells at the initial resolution 8. *)
Definition smallWindow : Window := {| innerWidth := 40; innerHeight := 40 |}.

(** A viewport of height 0. *)
Definition flatWindow : Window := {| innerWidth := 40; innerHeight := 0 |}.

(** A viewport 120 pixels wide: 15 cells at resolution 8, and 10 rows. *)
Definition wideWindow : Window := {| innerWidth := 120; innerHeight := 80 |}.

(** Draws that seed a horizontal blinker in the middle row. *)
Definition blinkerSeed (y x : nat) : bool :=
  (y =? 2)%nat && (1 <=? x)%nat && (x <=? 3)%nat.

Definition blinkerState : State :=
  initGrid blinkerSeed smallWindow TwoD 8 mountState.

Definition rule90Config : Config :=
  {| mode := OneD; rule1D := 90; birth2D := [3]; survival2D := [2; 3];
     resolution := 8%positive; speed := 15; hue := 180; colorMode := Age |}.

(** Draws that seed a 2 by 2 block, a still life of the Game of Life. *)
Definition blockSeed (y x : nat) : bool :=
  (1 <=? y)%nat && (y <=? 2)%nat && (1 <=? x)%nat && (x <=? 2)%nat.

Definition blockState : State :=
  initGrid blockSeed smallWindow TwoD 8 mountState.

(** A state no run produces: one row array standing for both rows of a
    grid. *)
Definition sharedRowState : State :=
  {| config := initialConfig; activePreset := None; generation := 0;
     rowStore := {[ 0%nat := [0; 0] ]}; gridRef := [0%nat; 0%nat];
     historyRef := []; cycleHueRef := 0 |}.

(** The 1D state seeded for rule 90 on the small viewport: one row of five
    cells. *)
Definition rule90State : State :=
  initGrid blinkerSeed smallWindow OneD 8 (setConfig rule90Config mountState).

(** The grid seeded when every draw fails: no live cell. *)
Definition deadState : State :=
  initGrid (λ _ _, false) smallWindow TwoD 8 mountState.

(** The blinker two steps later: the same cells alive, but older. *)
Definition blinkerAged : State :=
  match steps smallWindow 2 blinkerState with
  | Ok s => s
  | TypeError => blinkerState
  end.

Definition densityConfig (h : Z) : Config :=
  {| mode := TwoD; rule1D := 110; birth2D := [3]; survival2D := [2; 3];
     resolution := 8%positive; speed := 15; hue := h; colorMode := Density |}.

(** ** draw (lines 160-200)

    What [draw] paints, as the list of its [fillRect] calls in order, each
    with the [fillStyle] in force.  The canvas and its context are present
    whenever the loop runs.  The alpha [1 - trails] of the fading rectangle
    and the hue [hue + y * 0.2] and alpha [y / length] of a 1D row are
    floating-point values: the styles carry the operands they are computed
    from. *)

Inductive Style : Type :=
| Fade
| CellStyle (col : Color)
| RowStyle (baseHue : Z) (y len : nat).

Record Rect : Type := { rectX : Z; rectY : Z; rectW : Z; rectH : Z }.

Definition cellRect (res : positive) (y x : nat) : Rect :=
  {| rectX := Z.of_nat x * Z.pos res; rectY := Z.of_nat y * Z.pos res;
     rectW := Z.pos res - 1; rectH := Z.pos res - 1 |}.

Definition drawGrid (c : Config) (cycleHue : Z) (g : list (list Z))
  : list (Style * Rect) :=
  mjoin (imap (λ y row,
    mjoin (imap (λ x age,
      if 0 <? age then
        let neighbors :=
          match colorMode c with
          | Density =>
              countNeighbors g (Z.of_nat (length g)) (Z.of_nat (length row))
                (Z.of_nat y) (Z.of_nat x)
          | _ => 0
          end in
        [(CellStyle (getCellColor c cycleHue age neighbors),
          cellRect (resolution c) y x)]
      else [])
      row))
    g).

Definition drawHistory (c : Config) (hist : list (list jsval))
  : list (Style * Rect) :=
  mjoin (imap (λ y row,
    mjoin (imap (λ x v,
      match v with
      | Num 1 => [(RowStyle (hue c) y (length hist), cellRect (resolution c) y x)]
      | _ => []
      end)
      row))
    hist).

Definition draw (canvasWidth canvasHeight : Z) (st : State) : list (Style * Rect) :=
  (Fade, {| rectX := 0; rectY := 0; rectW := canvasWidth; rectH := canvasHeight |})
  :: match mode (config st) with
     | TwoD => drawGrid (config st) (cycleHueRef st) (gridOf st)
     | OneD => drawHistory (config st) (historyRef st)
     end.

(** ** The control handlers (lines 84-89, 293, 329-333, 344, 355-359, 377,
    394, 420-423, 433-436, 445-448)

    Each handler builds the new configuration by spreading the current one
    and overriding one field. *)

Definition withMode (m : Mode) (c : Config) : Config :=
  {| mode := m; rule1D := rule1D c; birth2D := birth2D c;
     survival2D := survival2D c; resolution := resolution c;
     speed := speed c; hue := hue c; colorMode := colorMode c |}.

Definition withRule1D (r : Z) (c : Config) : Config :=
  {| mode := mode c; rule1D := r; birth2D := birth2D c;
     survival2D := survival2D c; resolution := resolution c;
     speed := speed c; hue := hue c; colorMode := colorMode c |}.

Definition withBirth2D (b : list Z) (c : Config) : Config :=
  {| mode := mode c; rule1D := rule1D c; birth2D := b;
     survival2D := survival2D c; resolution := resolution c;
     speed := speed c; hue := hue c; colorMode := colorMode c |}.

Definition withSurvival2D (s : list Z) (c : Config) : Config :=
  {| mode := mode c; rule1D := rule1D c; birth2D := birth2D c;
     survival2D := s; resolution := resolution c;
     speed := speed c; hue := hue c; colorMode := colorMode c |}.

Definition withResolution (res : positive) (c : Config) : Config :=
  {| mode := mode c; rule1D := rule1D c; birth2D := birth2D c;
     survival2D := survival2D c; resolution := res;
     speed := speed c; hue := hue c; colorMode := colorMode c |}.

Definition withSpeed (v : Z) (c : Config) : Config :=
  {| mode := mode c; rule1D := rule1D c; birth2D := birth2D c;
     survival2D := survival2D c; resolution := resolution c;
     speed := v; hue := hue c; colorMode := colorMode c |}.

Definition withHue (h : Z) (c : Config) : Config :=
  {| mode := mode c; rule1D := rule1D c; birth2D := birth2D c;
     survival2D := survival2D c; resolution := resolution c;
     speed := speed c; hue := h; colorMode := colorMode c |}.

Definition withColorMode (cm : ColorMode) (c : Config) : Config :=
  {| mode := mode c; rule1D := rule1D c; birth2D := birth2D c;
     survival2D := survival2D c; resolution := resolution c;
     speed := speed c; hue := hue c; colorMode := cm |}.

(** The mount/resize effect and the Reset Seed button:
    [initGrid(config.mode, config.resolution)]. *)
Definition handleResize (rnd : nat → nat → bool) (win : Window) (st : State) : State :=
  initGrid rnd win (mode (config st)) (resolution (config st)) st.

Definition onResolutionChange (rnd : nat → nat → bool) (win : Window)
    (v : positive) (st : State) : State :=
  initGrid rnd win (mode (config st)) v
    (setConfig (withResolution v (config st)) st).

Definition onModeClick (rnd : nat → nat → bool) (win : Window)
    (m : Mode) (st : State) : State :=
  initGrid rnd win m (resolution (config st))
    (setActivePreset None (setConfig (withMode m (config st)) st)).

Definition onSpeedChange (v : Z) (st : State) : State :=
  setConfig (withSpeed v (config st)) st.

Definition onHueChange (v : Z) (st : State) : State :=
  setConfig (withHue v (config st)) st.

Definition onColorModeClick (cm : ColorMode) (st : State) : State :=
  setConfig (withColorMode cm (config st)) st.

Definition onRuleChange (v : Z) (st : State) : State :=
  setActivePreset None (setConfig (withRule1D v (config st)) st).

(** [arr.includes(n) ? arr.filter(x => x !== n) : [...arr, n]]. *)
Definition toggleNumber (n : Z) (arr : list Z) : list Z :=
  if includes arr n then filter (λ x, x ≠ n) arr else arr ++ [n].

Definition onBirthClick (n : Z) (st : State) : State :=
  setActivePreset None
    (setConfig (withBirth2D (toggleNumber n (birth2D (config st))) (config st)) st).

Definition onSurvivalClick (n : Z) (st : State) : State :=
  setActivePreset None
    (setConfig (withSurvival2D (toggleNumber n (survival2D (config st))) (config st)) st).

(** The states the running application goes through: the mount effect
    seeds the state before the first frame, and afterwards every event is a
    frame's [step], a pointer interaction or one of the handlers. *)
Inductive appReachable : State → Prop :=
| app_mount rnd win : appReachable (handleResize rnd win mountState)
| app_resize rnd win st : appReachable st → appReachable (handleResize rnd win st)
| app_step win st st' : appReachable st → step win st = Ok st' → appReachable st'
| app_interaction px py st :
    appReachable st → appReachable (handleCanvasInteraction px py st)
| app_preset rnd win key p st :
    appReachable st → appReachable (selectPreset rnd win key p st)
| app_resolution rnd win v st :
    appReachable st → appReachable (onResolutionChange rnd win v st)
| app_mode rnd win m st : appReachable st → appReachable (onModeClick rnd win m st)
| app_speed v st : appReachable st → appReachable (onSpeedChange v st)
| app_hue v st : appReachable st → appReachable (onHueChange v st)
| app_colorMode cm st : appReachable st → appReachable (onColorModeClick cm st)
| app_rule v st : appReachable st → appReachable (onRuleChange v st)
| app_birth n st : appReachable st → appReachable (onBirthClick n st)
| app_survival n st : appReachable st → appReachable (onSurvivalClick n st).

(** ** Further notions used in the properties *)

(** The elementary cellular automaton with Wolfram code [n] on a ring:
    cell [i] becomes bit [4 * left + 2 * centre + right] of [n]. *)
Definition ruleRow (n : Z) (row : list Z) : list Z :=
  let w := length row in
  imap (λ i centre,
    let left := default 0 (row !! torus w (Z.of_nat i - 1)) in
    let right := default 0 (row !! torus w (Z.of_nat i + 1)) in
    Z.b2z (Z.testbit n (4 * left + 2 * centre + right)))
    row.

(** The first row of the history as integers: dead but for the centre
    cell; a width of 0 still yields the one cell the write creates. *)
Definition seedRow (cols : nat) : list Z :=
  match cols with
  | O => [1]
  | S _ => <[(cols / 2)%nat := 1]> (replicate cols 0)
  end.

(** Which cells are alive, ages forgotten. *)
Definition liveRow (row : list Z) : list bool :=
  (λ a, bool_decide (0 < a)) <$> row.

Definition pattern (g : list (list Z)) : list (list bool) := liveRow <$> g.

(** No cell is alive. *)
Definition allDead (g : list (list Z)) : Prop :=
  Forall (Forall (λ a, a ≤ 0)) g.

(** The neighbour count that [draw] hands to [getCellColor]. *)
Definition drawCount (c : Config) (g : list (list Z)) (y x : nat)
    (row : list Z) : Z :=
  match colorMode c with
  | Density =>
      countNeighbors g (Z.of_nat (length g)) (Z.of_nat (length row))
        (Z.of_nat y) (Z.of_nat x)
  | _ => 0
  end.

(** The pixel [(px, py)] lies inside a rectangle. *)
Definition covers (r : Rect) (px py : Z) : Prop :=
  rectX r ≤ px < rectX r + rectW r ∧ rectY r ≤ py < rectY r + rectH r.

(** * Properties *)

(** ** The rule table *)

Section RuleBits.

Lemma chars_append (s1 s2 : string) :
  list_ascii_of_string (s1 +:+ s2)
  = list_ascii_of_string s1 ++ list_ascii_of_string s2.
Proof. induction s1 as [|c s1 IH]; simpl; [done | by rewrite IH]. Qed.

Lemma length_string_of_chars (l : list ascii) :
  String.length (string_of_list_ascii l) = length l.
Proof. induction l as [|c l IH]; simpl; [done | by rewrite IH]. Qed.

Lemma Number_replicate_zero (k : nat) :
  map Number (replicate k "0"%char) = replicate k (Num 0).
Proof. induction k as [|k IH]; simpl; [done | by rewrite IH]. Qed.

(** The digits of a positive number, read from the right, are its bits. *)
Lemma pos_digits2_bits (p : positive) (k : nat) :
  (k < length (pos_digits2 p))%nat →
  map Number (rev (pos_digits2 p)) !! k
  = Some (Num (Z.b2z (Z.testbit (Z.pos p) (Z.of_nat k)))).
Proof.
  revert k. induction p as [q IH | q IH |]; intros k Hk;
    cbn [pos_digits2] in *.
  - rewrite rev_unit. rewrite length_app in Hk.
    destruct k as [|k]; [done |].
    rewrite Pos2Z.inj_xI, Nat2Z.inj_succ.
    change (2 * Z.pos q + 1) with (2 * Z.pos q + Z.b2z true).
    rewrite Z.testbit_succ_r by lia.
    simpl. apply IH. simpl in Hk. lia.
  - rewrite rev_unit. rewrite length_app in Hk.
    destruct k as [|k]; [done |].
    rewrite Pos2Z.inj_xO, Nat2Z.inj_succ, Z.double_bits_succ.
    simpl. apply IH. simpl in Hk. lia.
  - destruct k as [|k]; [done | simpl in Hk; lia].
Qed.

Lemma pos_digits2_bound (p : positive) :
  Z.pos p < 2 ^ Z.of_nat (length (pos_digits2 p)).
Proof.
  induction p as [q IH | q IH |]; simpl.
  - rewrite length_app, Nat.add_1_r, Nat2Z.inj_succ, Z.pow_succ_r by lia. lia.
  - rewrite length_app, Nat.add_1_r, Nat2Z.inj_succ, Z.pow_succ_r by lia. lia.
  - done.
Qed.

Lemma pos_digits2_short (p : positive) (m : nat) :
  Z.pos p < 2 ^ Z.of_nat m → (length (pos_digits2 p) ≤ m)%nat.
Proof.
  revert m. induction p as [q IH | q IH |]; intros m Hm; simpl.
  - destruct m as [|m]; [simpl in Hm; lia |].
    rewrite Nat2Z.inj_succ, Z.pow_succ_r in Hm by lia.
    rewrite length_app. simpl. specialize (IH m). lia.
  - destruct m as [|m]; [simpl in Hm; lia |].
    rewrite Nat2Z.inj_succ, Z.pow_succ_r in Hm by lia.
    rewrite length_app. simpl. specialize (IH m). lia.
  - destruct m as [|m]; [simpl in Hm; lia | simpl; lia].
Qed.

Lemma testbit_above (p : positive) (k : nat) :
  (length (pos_digits2 p) ≤ k)%nat → Z.testbit (Z.pos p) (Z.of_nat k) = false.
Proof.
  intros Hk. apply Z.bits_above_log2; [lia |].
  apply Z.log2_lt_pow2; [lia |].
  pose proof (pos_digits2_bound p) as Hb.
  eapply Z.lt_le_trans; [exact Hb |].
  apply Z.pow_le_mono_r; lia.
Qed.

Lemma land_shiftr_testbit (n k : Z) :
  0 ≤ k → Z.land (Z.shiftr n k) 1 = Z.b2z (Z.testbit n k).
Proof.
  intros Hk. change 1 with (Z.ones 1).
  rewrite Z.land_ones by lia. change (2 ^ 1) with 2.
  rewrite <- Z.bit0_mod, Z.shiftr_spec by lia. by rewrite Z.add_0_l.
Qed.

(** [getRuleBits] once the string plumbing is unfolded. *)
Lemma getRuleBits_unfold (n : Z) :
  let digits := list_ascii_of_string (toString2 n) in
  getRuleBits n
  = map Number (rev digits) ++ replicate (8 - length digits) (Num 0).
Proof.
  intros digits. unfold getRuleBits, split_chars, padStart.
  rewrite chars_append, list_ascii_of_string_of_list_ascii.
  fold digits. rewrite rev_app_distr, map_app.
  replace (String.length (toString2 n)) with (length digits).
  - f_equal. rewrite <- Number_replicate_zero. f_equal.
    clear. induction (8 - length digits)%nat as [|k IH]; simpl; [done |].
    rewrite IH. clear. induction k as [|k IH]; simpl; [done | by rewrite <- IH].
  - unfold digits, toString2.
    by rewrite list_ascii_of_string_of_list_ascii, length_string_of_chars.
Qed.

Lemma getRuleBits_lookup (n : Z) (k : nat) :
  0 ≤ n ≤ 255 → (k < 8)%nat →
  getRuleBits n !! k = Some (Num (Z.b2z (Z.testbit n (Z.of_nat k)))).
Proof.
  intros Hn Hk. rewrite getRuleBits_unfold. unfold toString2.
  rewrite list_ascii_of_string_of_list_ascii.
  destruct n as [|p|p]; [| | lia].
  - rewrite Z.bits_0. by do 8 (destruct k as [|k]; [done |]); lia.
  - assert (length (pos_digits2 p) ≤ 8)%nat as Hlen
      by (apply pos_digits2_short; simpl; lia).
    destruct (decide (k < length (pos_digits2 p))%nat) as [Hlt | Hge].
    + rewrite lookup_app_l by (by rewrite length_map, length_rev).
      by apply pos_digits2_bits.
    + rewrite lookup_app_r by (rewrite length_map, length_rev; lia).
      rewrite length_map, length_rev, testbit_above by lia.
      apply lookup_replicate_2. lia.
Qed.

Lemma getRuleBits_length (n : Z) :
  0 ≤ n ≤ 255 → length (getRuleBits n) = 8%nat.
Proof.
  intros Hn. rewrite getRuleBits_unfold. unfold toString2.
  rewrite list_ascii_of_string_of_list_ascii.
  rewrite length_app, length_map, length_rev, length_replicate.
  destruct n as [|p|p]; [done | | lia].
  assert (length (pos_digits2 p) ≤ 8)%nat
    by (apply pos_digits2_short; simpl; lia).
  lia.
Qed.

(** C2: for every rule number in 0..255, [getRuleBits] returns exactly 8
    bits, the one at index [k] being the [k]-th least significant bit
    [(n >> k) & 1] of the rule number; rules 30 and 110 give
    [0,1,1,1,1,0,0,0] and [0,1,1,1,0,1,1,0]. *)
Theorem getRuleBits_correct (n : Z) :
  0 ≤ n ≤ 255 →
  length (getRuleBits n) = 8%nat
  ∧ (∀ k : nat, (k < 8)%nat →
       getRuleBits n !! k = Some (Num (Z.land (Z.shiftr n (Z.of_nat k)) 1)))
  ∧ getRuleBits 30 = Num <$> [0; 1; 1; 1; 1; 0; 0; 0]
  ∧ getRuleBits 110 = Num <$> [0; 1; 1; 1; 0; 1; 1; 0].
Proof.
  intros Hn. split; [by apply getRuleBits_length |].
  split; [| split; reflexivity].
  intros k Hk. rewrite land_shiftr_testbit by lia.
  by apply getRuleBits_lookup.
Qed.

Lemma getRuleBits_correct_witness :
  0 ≤ 90 ≤ 255
  ∧ length (getRuleBits 90) = 8%nat
  ∧ getRuleBits 90 !! 3%nat = Some (Num (Z.land (Z.shiftr 90 3) 1)).
Proof.
  split; [lia |].
  split; [apply (getRuleBits_correct 90); lia |].
  apply (proj1 (proj2 (getRuleBits_correct 90 ltac:(lia))) 3%nat). lia.
Defined.

End RuleBits.

(** ** The row store *)

Section Store.

Implicit Types (h : gmap loc (list Z)) (rows : list (list Z)) (ls : list loc).

(** New rows read back as written, have pairwise distinct identities that
    were not in use, and leave every existing row as it was. *)
Lemma allocRows_spec rows h h' ls :
  allocRows h rows = (h', ls) →
  rowAt h' <$> ls = rows
  ∧ NoDup ls
  ∧ (∀ l, l ∈ ls → h !! l = None)
  ∧ (∀ l, is_Some (h !! l) → h' !! l = h !! l).
Proof.
  revert h h' ls. induction rows as [|r rs IH]; intros h h' ls Halloc.
  - injection Halloc as <- <-.
    repeat split; [constructor | by intros l ?%elem_of_nil].
  - cbn [allocRows] in Halloc.
    set (l := fresh (dom h)) in *.
    destruct (allocRows (<[l := r]> h) rs) as [h1 ls1] eqn:Hrec.
    injection Halloc as <- <-.
    destruct (IH _ _ _ Hrec) as (Hread & Hnodup & Hnew & Hold).
    assert (h !! l = None) as Hl by apply not_elem_of_dom, is_fresh.
    assert (h1 !! l = Some r) as Hlr.
    { rewrite Hold; rewrite lookup_insert_eq; eauto. }
    repeat split.
    + cbn. unfold rowAt at 1. rewrite Hlr. cbn. by rewrite Hread.
    + constructor; [| done]. intros Hin. apply Hnew in Hin.
      by rewrite lookup_insert_eq in Hin.
    + intros l0 [-> | Hin]%elem_of_cons; [done |].
      apply Hnew in Hin. destruct (decide (l = l0)) as [-> | Hne].
      * by rewrite lookup_insert_eq in Hin.
      * by rewrite lookup_insert_ne in Hin.
    + intros l0 Hsome. assert (l ≠ l0) as Hne.
      { intros ->. rewrite Hl in Hsome. by destruct Hsome. }
      rewrite Hold; rewrite lookup_insert_ne; done.
Qed.

End Store.

(** ** Neighbour counting *)

Section Neighbours.

Lemma incr_b2z (b : bool) (n : Z) : (if b then n + 1 else n) = n + Z.b2z b.
Proof. destruct b; simpl; lia. Qed.

Lemma count_cons (a : Z → Z → bool) (d : Z * Z) (l : list (Z * Z)) :
  Z.of_nat (length (filter (λ d, a d.1 d.2 = true) (d :: l)))
  = Z.b2z (a d.1 d.2) + Z.of_nat (length (filter (λ d, a d.1 d.2 = true) l)).
Proof.
  rewrite filter_cons.
  destruct (a d.1 d.2); case_decide; try done; cbn [length Z.b2z]; lia.
Qed.

(** The nested loops add one per offset of the Moore neighbourhood whose
    test succeeds, whatever the test. *)
Lemma loops_count (a : Z → Z → bool) (P : Z * Z → Prop)
    `{!∀ d, Decision (P d)} :
  (∀ d, a d.1 d.2 = true ↔ P d) →
  foldl (λ n i,
    foldl (λ n j,
      if (i =? 0) && (j =? 0) then n else if a i j then n + 1 else n)
      n [-1; 0; 1])
    0 [-1; 0; 1]
  = Z.of_nat (length (filter P mooreOffsets)).
Proof.
  intros Hiff.
  rewrite <- (list_filter_iff (λ d, a d.1 d.2 = true) P) by done.
  unfold mooreOffsets. rewrite !count_cons, filter_nil.
  cbn [foldl fst snd Z.eqb andb length]. rewrite !incr_b2z. lia.
Qed.

Lemma rem_torus (n : nat) (k : Z) :
  (0 < n)%nat → -1 ≤ k →
  rem (k + Z.of_nat n) (Z.of_nat n) = Some (Z.of_nat (torus n k)).
Proof.
  intros Hn Hk. unfold rem, torus.
  destruct (Z.eqb_spec (Z.of_nat n) 0) as [? | _]; [lia |].
  rewrite Z.rem_mod_nonneg by lia.
  replace (k + Z.of_nat n) with (k + 1 * Z.of_nat n) by lia.
  rewrite Z.mod_add by lia.
  rewrite Z2Nat.id; [done |]. apply Z.mod_pos_bound. lia.
Qed.

Lemma aliveAt_cell (g : list (list Z)) (ny nx : nat) :
  aliveAt g (Some (Z.of_nat ny)) (Some (Z.of_nat nx)) = (0 <? cell g ny nx).
Proof.
  assert (∀ n : nat, (Z.of_nat n <? 0) = false) as Hnonneg
    by (intros n; apply Z.ltb_ge; lia).
  unfold aliveAt, cell, index_opt, index.
  rewrite !Hnonneg, !Nat2Z.id.
  destruct (g !! ny) as [row |]; cbn; [| done].
  by destruct (row !! nx).
Qed.

(** On a grid with at least one row and one column the loops compute the
    toroidal Moore neighbour count. *)
Lemma countNeighbors_moore (g : list (list Z)) (rows cols y x : nat) :
  (0 < rows)%nat → (0 < cols)%nat →
  countNeighbors g (Z.of_nat rows) (Z.of_nat cols) (Z.of_nat y) (Z.of_nat x)
  = mooreCount g rows cols y x.
Proof.
  intros Hrows Hcols. unfold countNeighbors, mooreCount.
  set (a := λ i j : Z,
    aliveAt g (rem (Z.of_nat y + i + Z.of_nat rows) (Z.of_nat rows))
              (rem (Z.of_nat x + j + Z.of_nat cols) (Z.of_nat cols))).
  set (P := λ d : Z * Z,
    0 < cell g (torus rows (Z.of_nat y + d.1)) (torus cols (Z.of_nat x + d.2))).
  rewrite <- (loops_count
    (λ i j, if (-1 <=? i) && (-1 <=? j) then a i j
            else bool_decide (P (i, j))) P).
  - reflexivity.
  - intros [i j]. cbn [fst snd].
    destruct (Z.leb_spec (-1) i), (Z.leb_spec (-1) j); cbn [andb];
      try apply bool_decide_eq_true.
    unfold a, P. cbn [fst snd].
    rewrite !rem_torus by lia. rewrite aliveAt_cell. apply Z.ltb_lt.
Qed.

End Neighbours.

(** ** The 2D transition *)

Section Step2D.

Implicit Types (g : list (list Z)) (c : Config) (st : State).

Lemma includes_elem_of (arr : list Z) (n : Z) :
  includes arr n = true ↔ n ∈ arr.
Proof.
  unfold includes. rewrite existsb_exists, list_elem_of_In. split.
  - by intros (m & Hin & ->%Z.eqb_eq).
  - intros Hin. exists n. split; [done | apply Z.eqb_refl].
Qed.

Lemma length_nextGrid c g : length (nextGrid c g) = length g.
Proof. unfold nextGrid. apply length_imap. Qed.

Lemma nextGrid_lookup c g (y : nat) (row : list Z) :
  g !! y = Some row →
  ∃ row', nextGrid c g !! y = Some row'
    ∧ length row' = length row
    ∧ ∀ (x : nat) (age : Z), row !! x = Some age →
        row' !! x = Some (nextAge c age
          (countNeighbors g (Z.of_nat (length g))
             (Z.of_nat (length (default [] (head g))))
             (Z.of_nat y) (Z.of_nat x))).
Proof.
  intros Hrow. unfold nextGrid. rewrite list_lookup_imap, Hrow. cbn.
  eexists. split; [done |]. split; [apply length_imap |].
  intros x age Hage. by rewrite list_lookup_imap, Hage.
Qed.

Lemma nextGrid_rectangular c g (cols : nat) :
  rectangular cols g → rectangular cols (nextGrid c g).
Proof.
  unfold rectangular. rewrite !Forall_lookup. intros Hrect y row' Hy.
  destruct (g !! y) as [row |] eqn:Hrow.
  - destruct (nextGrid_lookup c g y row Hrow) as (r & Hr & Hlen & _).
    rewrite Hr in Hy. injection Hy as <-. rewrite Hlen. by eapply Hrect.
  - apply lookup_ge_None in Hrow. apply lookup_lt_Some in Hy.
    rewrite length_nextGrid in Hy. lia.
Qed.

(** On a grid with at least one row, [step] replaces the grid by
    [nextGrid] of the grid it found, in new row arrays, and ticks. *)
Lemma step_2D win st :
  mode (config st) = TwoD → gridOf st ≠ [] →
  ∃ st', step win st = Ok st'
    ∧ gridOf st' = nextGrid (config st) (gridOf st)
    ∧ NoDup (gridRef st')
    ∧ (∀ l, is_Some (rowStore st !! l) → rowStore st' !! l = rowStore st !! l)
    ∧ generation st' = generation st + 1
    ∧ config st' = config st
    ∧ historyRef st' = historyRef st.
Proof.
  intros Hmode Hne. unfold step. rewrite Hmode.
  destruct (Nat.eqb_spec (length (gridOf st)) 0) as [Hlen | _].
  { by apply length_zero_iff_nil in Hlen. }
  destruct (allocRows _ _) as [h ls] eqn:Halloc.
  destruct (allocRows_spec _ _ _ _ Halloc) as (Hread & Hnodup & _ & Hold).
  eexists. split; [done |]. repeat split; done.
Qed.

(** On a grid with no row, [step] returns before doing anything. *)
Lemma step_2D_empty win st :
  mode (config st) = TwoD → gridOf st = [] → step win st = Ok st.
Proof. intros Hmode Hnil. unfold step. by rewrite Hmode, Hnil. Qed.

Lemma cell_lookup g (y x : nat) (row : list Z) (age : Z) :
  g !! y = Some row → row !! x = Some age → cell g y x = age.
Proof. intros Hy Hx. unfold cell. rewrite Hy. cbn. by rewrite Hx. Qed.

Lemma cell_alive_lookup g (y x : nat) :
  0 < cell g y x →
  ∃ row, g !! y = Some row ∧ row !! x = Some (cell g y x).
Proof.
  unfold cell. destruct (g !! y) as [row |]; cbn; [| lia].
  destruct (row !! x) as [age |] eqn:Hx; cbn; [| lia]. eauto.
Qed.

Lemma nextAge_cases c (age n : Z) :
  (0 < nextAge c age n ↔
     (¬ 0 < age ∧ n ∈ birth2D c) ∨ (0 < age ∧ n ∈ survival2D c))
  ∧ (0 < age → n ∈ survival2D c → nextAge c age n = Z.min (age + 1) 100)
  ∧ (¬ 0 < age → n ∈ birth2D c → nextAge c age n = 1)
  ∧ (0 < age → n ∉ survival2D c → nextAge c age n = 0)
  ∧ (¬ 0 < age → n ∉ birth2D c → nextAge c age n = 0).
Proof.
  unfold nextAge. rewrite <- !includes_elem_of.
  destruct (Z.ltb_spec 0 age);
    destruct (includes (survival2D c) n), (includes (birth2D c) n);
    repeat split; intros; try done; try lia; intuition (try done; try lia).
Qed.

(** C1: on a non-empty rectangular grid one call of [step] succeeds,
    keeps the dimensions, and gives every cell the state the
    birth/survival rule assigns to its pre-step state and the toroidal
    Moore neighbour count of the pre-step grid: alive exactly when it was
    dead with a count in the birth set or alive with a count in the
    survival set, with age [min (age + 1) 100] on survival, [1] on birth
    and [0] otherwise.  The new grid is a function of the configuration
    and the pre-step grid alone, whose row arrays are left as they were. *)
Theorem step_2D_rule win st (rows cols : nat) :
  mode (config st) = TwoD →
  length (gridOf st) = rows → (0 < rows)%nat →
  rectangular cols (gridOf st) →
  ∃ st', step win st = Ok st'
    ∧ length (gridOf st') = rows
    ∧ rectangular cols (gridOf st')
    ∧ gridOf st' = nextGrid (config st) (gridOf st)
    ∧ (∀ l, is_Some (rowStore st !! l) → rowStore st' !! l = rowStore st !! l)
    ∧ ∀ y x : nat, (y < rows)%nat → (x < cols)%nat →
        let old := cell (gridOf st) y x in
        let n := mooreCount (gridOf st) rows cols y x in
        let new := cell (gridOf st') y x in
        (0 < new ↔
           (¬ 0 < old ∧ n ∈ birth2D (config st))
           ∨ (0 < old ∧ n ∈ survival2D (config st)))
        ∧ (0 < old → n ∈ survival2D (config st) → new = Z.min (old + 1) 100)
        ∧ (¬ 0 < old → n ∈ birth2D (config st) → new = 1)
        ∧ (0 < old → n ∉ survival2D (config st) → new = 0)
        ∧ (¬ 0 < old → n ∉ birth2D (config st) → new = 0).
Proof.
  intros Hmode Hrows Hpos Hrect.
  assert (gridOf st ≠ []) as Hne.
  { intros Hnil. rewrite Hnil in Hrows. simpl in Hrows. lia. }
  destruct (step_2D win st Hmode Hne) as (st' & Hstep & Hgrid & _ & Hold & _).
  exists st'. split; [done |]. rewrite Hgrid.
  split; [by rewrite length_nextGrid |].
  split; [by apply nextGrid_rectangular |].
  split; [done |]. split; [done |].
  intros y x Hy Hx old n new.
  destruct (lookup_lt_is_Some_2 (gridOf st) y) as [row Hrow]; [lia |].
  assert (length row = cols) as Hlen.
  { unfold rectangular in Hrect. rewrite Forall_lookup in Hrect. eauto. }
  destruct (lookup_lt_is_Some_2 row x) as [age Hage]; [lia |].
  destruct (nextGrid_lookup (config st) _ _ _ Hrow) as (row' & Hrow' & _ & Hcells).
  assert (length (default [] (head (gridOf st))) = cols) as Hhead.
  { destruct (gridOf st) as [| r0 g0] eqn:Hg; [done |]. cbn.
    unfold rectangular in Hrect. by apply Forall_cons_1 in Hrect as [? _]. }
  assert (new = nextAge (config st) old n) as ->.
  { unfold new, old, n.
    rewrite (cell_lookup _ _ _ _ _ Hrow' (Hcells _ _ Hage)).
    rewrite (cell_lookup _ _ _ _ _ Hrow Hage).
    rewrite Hhead, Hrows. by rewrite countNeighbors_moore by lia. }
  apply nextAge_cases.
Qed.

Lemma step_2D_rule_witness :
  mode (config blinkerState) = TwoD
  ∧ length (gridOf blinkerState) = 5%nat
  ∧ rectangular 5 (gridOf blinkerState)
  ∧ ∃ st', step smallWindow blinkerState = Ok st'
      ∧ cell (gridOf st') 1 2 = 1
      ∧ cell (gridOf st') 2 2 = 2
      ∧ cell (gridOf st') 2 1 = 0.
Proof.
  assert (rectangular 5 (gridOf blinkerState)) as Hrect
    by (vm_compute; repeat constructor).
  split; [reflexivity |]. split; [reflexivity |]. split; [exact Hrect |].
  destruct (step_2D_rule smallWindow blinkerState 5 5)
    as (st' & Hstep & _ & _ & _ & _ & Hcells);
    [reflexivity | reflexivity | lia | exact Hrect |].
  exists st'. split; [exact Hstep |].
  split; [| split].
  - destruct (Hcells 1%nat 2%nat) as (_ & _ & Hborn & _); [lia | lia |].
    apply Hborn; [intros Halive; vm_compute in Halive; discriminate |].
    vm_compute. apply list_elem_of_here.
  - destruct (Hcells 2%nat 2%nat) as (_ & Hstay & _); [lia | lia |].
    apply Hstay; [vm_compute; reflexivity |].
    vm_compute. apply list_elem_of_here.
  - destruct (Hcells 2%nat 1%nat) as (_ & _ & _ & Hdie & _); [lia | lia |].
    apply Hdie; [vm_compute; reflexivity |].
    vm_compute. intros Hin. apply list_elem_of_In in Hin.
    cbn in Hin. lia.
Defined.

End Step2D.

(** ** Runs of [step] *)

Section Runs.

Implicit Types (st : State) (win : Window) (k : nat).

Lemma steps_snoc win k st :
  steps win (S k) st
  = match steps win k st with
    | Ok st' => step win st'
    | TypeError => TypeError
    end.
Proof.
  revert st. induction k as [|k IH]; intros st.
  - cbn. by destruct (step win st).
  - change (steps win (S (S k)) st)
      with (match step win st with
            | Ok st' => steps win (S k) st'
            | TypeError => TypeError
            end).
    destruct (step win st) as [st1 |] eqn:Hstep.
    + rewrite IH. cbn [steps]. by rewrite Hstep.
    + cbn [steps]. by rewrite Hstep.
Qed.

(** A property that [step] maintains while counting holds along every run. *)
Lemma steps_counting (Inv : State → Prop) win :
  (∀ st, Inv st →
     ∃ st', step win st = Ok st' ∧ Inv st'
       ∧ generation st' = generation st + 1) →
  ∀ k st, Inv st →
    ∃ st', steps win k st = Ok st' ∧ Inv st'
      ∧ generation st' = generation st + Z.of_nat k.
Proof.
  intros Hstep k. induction k as [|k IH]; intros st Hinv.
  - exists st. cbn. repeat split; [done | lia].
  - destruct (Hstep st Hinv) as (st1 & Hst1 & Hinv1 & Hgen1).
    destruct (IH st1 Hinv1) as (st' & Hst' & Hinv' & Hgen').
    exists st'. cbn [steps]. rewrite Hst1. repeat split; [done.. | lia].
Qed.

End Runs.

(** ** The 1D transition *)

Section Step1D.

Implicit Types (st : State) (win : Window).

Lemma step_1D win st (current : list jsval) :
  mode (config st) = OneD → last (historyRef st) = Some current →
  ∃ st', step win st = Ok st'
    ∧ historyRef st'
      = advance (historyBound win (resolution (config st)))
          (getRuleBits (rule1D (config st))) (historyRef st) current
    ∧ generation st' = generation st + 1
    ∧ config st' = config st
    ∧ rowStore st' = rowStore st
    ∧ gridRef st' = gridRef st.
Proof.
  intros Hmode Hlast. unfold step. rewrite Hmode, Hlast.
  eexists. split; [done |]. repeat split; done.
Qed.

(** With no row in the history, [current] is [undefined] and reading
    [current.length] throws. *)
Lemma step_1D_empty win st :
  mode (config st) = OneD → historyRef st = [] → step win st = TypeError.
Proof. intros Hmode Hnil. unfold step. by rewrite Hmode, Hnil. Qed.

Lemma advance_nonempty bound bits hist current :
  hist ≠ [] → advance bound bits hist current ≠ [].
Proof.
  intros Hne. unfold advance.
  destruct hist as [|r hist]; [done |].
  destruct (_ >? _); cbn; [by destruct hist | done].
Qed.

Lemma last_nonempty {A} (l : list A) : l ≠ [] → ∃ x, last l = Some x.
Proof.
  intros Hne. destruct (last l) as [x |] eqn:Hlast; [eauto |].
  by apply last_None in Hlast.
Qed.

End Step1D.

(** ** Stepping an empty state *)

Section EmptyState.

(** On the state the component is mounted with (no grid row, no history
    row) [step] in 2D mode returns at its guard and leaves the state as it
    is; put in 1D mode it would throw: the last row of the empty history is
    [undefined] and [current.length] is a [TypeError]. *)
Lemma step_on_empty_state (win : Window) :
  (∀ st, mode (config st) = TwoD → gridOf st = [] → step win st = Ok st)
  ∧ (∀ st, mode (config st) = OneD → historyRef st = [] →
       step win st = TypeError)
  ∧ step win mountState = Ok mountState
  ∧ step win (setConfig rule90Config mountState) = TypeError.
Proof.
  split; [intros st; apply step_2D_empty |].
  split; [intros st; apply step_1D_empty |].
  split; reflexivity.
Qed.

End EmptyState.

(** ** The generation counter *)

Section Generation.

Implicit Types (st : State) (win : Window) (c : Config).

Lemma generation_initGrid rnd win m res st :
  generation (initGrid rnd win m res st) = 0.
Proof.
  unfold initGrid. cbv zeta. destruct m; [done |].
  by destruct (allocRows _ _).
Qed.

Lemma config_initGrid rnd win m res st :
  config (initGrid rnd win m res st) = config st.
Proof.
  unfold initGrid. cbv zeta. destruct m; [done |].
  by destruct (allocRows _ _).
Qed.

Lemma historyRef_initGrid_1D rnd win res st :
  historyRef (initGrid rnd win OneD res st)
  = [firstRow (ceil_div (Z.of_N (innerWidth win)) res)].
Proof. done. Qed.

Lemma gridOf_initGrid_2D rnd win res st :
  gridOf (initGrid rnd win TwoD res st)
  = seedGrid rnd (ceil_div (Z.of_N (innerHeight win)) res)
      (ceil_div (Z.of_N (innerWidth win)) res).
Proof.
  unfold initGrid. cbv zeta.
  destruct (allocRows _ _) as [h ls] eqn:Halloc.
  by destruct (allocRows_spec _ _ _ _ Halloc) as (Hread & _).
Qed.

(** [ceil_div] is the least integer that is at least the quotient. *)
Lemma ceil_div_spec (a : Z) (b : positive) :
  Z.pos b * (ceil_div a b - 1) < a ≤ Z.pos b * ceil_div a b.
Proof.
  unfold ceil_div.
  pose proof (Z.div_mod (- a) (Z.pos b)).
  pose proof (Z.mod_pos_bound (- a) (Z.pos b)). lia.
Qed.

Lemma ceil_div_pos (a : Z) (b : positive) : 0 < a → 0 < ceil_div a b.
Proof.
  intros Ha. unfold ceil_div.
  assert (- a / Z.pos b < 0); [| lia].
  apply Z.div_lt_upper_bound; lia.
Qed.

Lemma length_seedGrid rnd (rows cols : Z) :
  length (seedGrid rnd rows cols) = Z.to_nat rows.
Proof. unfold seedGrid. by rewrite length_fmap, length_seq. Qed.

(** Every call of [step] that gets past the guard counts one generation. *)
Lemma step_counts win st st' :
  step win st = Ok st' →
  mode (config st) = OneD ∨ gridOf st ≠ [] →
  generation st' = generation st + 1.
Proof.
  intros Hstep Hcase. destruct (mode (config st)) eqn:Hmode.
  - destruct (historyRef st) as [|r hist] eqn:Hhist.
    { by rewrite step_1D_empty in Hstep. }
    destruct (last_nonempty (r :: hist)) as [current Hlast]; [done |].
    rewrite <- Hhist in Hlast.
    destruct (step_1D win st current Hmode Hlast) as (st1 & Hst1 & _ & Hgen & _).
    rewrite Hst1 in Hstep. by injection Hstep as <-.
  - destruct Hcase as [? | Hne]; [done |].
    destruct (step_2D win st Hmode Hne) as (st1 & Hst1 & _ & _ & _ & Hgen & _).
    rewrite Hst1 in Hstep. by injection Hstep as <-.
Qed.

(** C5 (as the code has it): the counter is 0 after every [initGrid];
    [K] calls of [step] after an [initGrid] succeed and leave it at [K]
    in 1D mode and, when the viewport has positive height (so that the
    grid has a row), in 2D mode; every call of [step] in 1D mode or on a
    grid with at least one row adds exactly 1, whereas on a 2D grid
    without rows [step] returns at its guard and the counter stays. *)
Theorem generation_counter rnd win c st (K : nat) :
  let st0 := initGrid rnd win (mode c) (resolution c) (setConfig c st) in
  generation st0 = 0
  ∧ (mode c = OneD ∨ (0 < innerHeight win)%N →
       ∃ stK, steps win K st0 = Ok stK ∧ generation stK = Z.of_nat K)
  ∧ (∀ s s', step win s = Ok s' →
       mode (config s) = OneD ∨ gridOf s ≠ [] →
       generation s' = generation s + 1)
  ∧ (∀ s, mode (config s) = TwoD → gridOf s = [] → step win s = Ok s).
Proof.
  intros st0.
  assert (generation st0 = 0) as Hzero by apply generation_initGrid.
  split; [done |].
  split; [| split; [intros s s'; apply step_counts |]].
  - intros Hcase.
    set (Inv := λ s : State,
      (mode (config s) = OneD ∧ historyRef s ≠ [])
      ∨ (mode (config s) = TwoD ∧ gridOf s ≠ [])).
    destruct (steps_counting Inv win) with (k := K) (st := st0)
      as (stK & HstK & _ & Hgen).
    + intros s [[Hmode Hne] | [Hmode Hne]].
      * destruct (last_nonempty _ Hne) as [current Hlast].
        destruct (step_1D win s current Hmode Hlast)
          as (s' & Hs' & Hhist & Hgen & Hcfg & _).
        exists s'. split; [done |]. split; [| done]. left.
        rewrite Hcfg, Hhist. split; [done |]. by apply advance_nonempty.
      * destruct (step_2D win s Hmode Hne)
          as (s' & Hs' & Hgrid & _ & _ & Hgen & Hcfg & _).
        exists s'. split; [done |]. split; [| done]. right.
        rewrite Hcfg, Hgrid. split; [done |].
        intros Hnil. apply (f_equal length) in Hnil.
        rewrite length_nextGrid in Hnil. by destruct (gridOf s).
    + unfold Inv, st0. rewrite config_initGrid. cbn [config setConfig].
      destruct (mode c) eqn:Hmode.
      * left. split; [done |]. by rewrite historyRef_initGrid_1D.
      * right. split; [done |]. destruct Hcase as [? | Hheight]; [done |].
        rewrite gridOf_initGrid_2D. intros Hnil.
        apply (f_equal length) in Hnil. rewrite length_seedGrid in Hnil.
        pose proof (ceil_div_pos (Z.of_N (innerHeight win)) (resolution c)).
        cbn in Hnil. lia.
    + exists stK. split; [done |]. lia.
  - intros s Hmode Hnil. by apply step_2D_empty.
Qed.

(** On a viewport of height 0 the 2D grid has no row, and a call of
    [step] after [initGrid] leaves the counter at 0. *)
Lemma counter_stays_on_empty_grid :
  ∃ st', steps flatWindow 1 (initGrid blinkerSeed flatWindow TwoD 8 mountState)
         = Ok st'
    ∧ generation st' ≠ 1.
Proof. eexists. split; [reflexivity |]. vm_compute. discriminate. Qed.

Lemma generation_counter_witness :
  (0 < innerHeight smallWindow)%N
  ∧ ∃ st', steps smallWindow 3 blinkerState = Ok st' ∧ generation st' = 3.
Proof.
  split; [reflexivity |].
  apply (proj1 (proj2
    (generation_counter blinkerSeed smallWindow initialConfig mountState 3))).
  right. reflexivity.
Defined.

End Generation.

(** ** The 1D history is a sliding window *)

Section History.

Variables (bits first : list jsval) (B : Z).

(** The history never gets empty, so the effective bound is at least 1. *)
Local Abbreviation b := (Z.to_nat (Z.max B 1)).

Lemma generations_S (n : nat) :
  generations bits first (S n)
  = generations bits first n ++ [generationRow bits first n].
Proof. unfold generations. by rewrite seq_S, fmap_app. Qed.

Lemma length_generations (n : nat) : length (generations bits first n) = n.
Proof. unfold generations. by rewrite length_fmap, length_seq. Qed.

Lemma generations_lookup (n i : nat) :
  (i < n)%nat → generations bits first n !! i = Some (generationRow bits first i).
Proof.
  intros Hi. unfold generations.
  by rewrite list_lookup_fmap, lookup_seq_lt.
Qed.

Lemma tail_drop {A} (l : list A) (n : nat) : tail (drop n l) = drop (S n) l.
Proof.
  replace (S n) with (n + 1)%nat by lia.
  rewrite <- drop_drop. by destruct (drop n l).
Qed.

(** The window over generations [0..k]. *)
Lemma window_last (k : nat) :
  last (drop (S k - b) (generations bits first (S k)))
  = Some (generationRow bits first k).
Proof.
  rewrite generations_S, drop_app_le, last_snoc; [done |].
  rewrite length_generations. lia.
Qed.

Lemma advance_window (k : nat) :
  advance B bits (drop (S k - b) (generations bits first (S k)))
    (generationRow bits first k)
  = drop (S (S k) - b) (generations bits first (S (S k))).
Proof.
  unfold advance.
  change (nextRow bits (generationRow bits first k))
    with (generationRow bits first (S k)).
  rewrite <- drop_app_le by (rewrite length_generations; lia).
  rewrite <- generations_S.
  rewrite length_drop, length_generations.
  destruct (Z.gtb_spec (Z.of_nat (S (S k) - (S k - b))) B) as [Hgt | Hle].
  - rewrite tail_drop. f_equal. lia.
  - f_equal. lia.
Qed.

Lemma window_length (k : nat) :
  length (drop (S k - b) (generations bits first (S k))) = (S k `min` b)%nat.
Proof. rewrite length_drop, length_generations. lia. Qed.

Lemma window_lookup (k j : nat) :
  (j < S k `min` b)%nat →
  drop (S k - b) (generations bits first (S k)) !! j
  = Some (generationRow bits first (S k - S k `min` b + j)).
Proof.
  intros Hj. rewrite lookup_drop, generations_lookup by lia.
  do 2 f_equal. lia.
Qed.

End History.

Section HistoryRun.

Implicit Types (st : State) (win : Window) (c : Config).

(** After [k] steps the history is the window of the last
    [max bound 1] generations. *)
Lemma history_after_steps rnd win c st (k : nat) :
  mode c = OneD →
  let bits := getRuleBits (rule1D c) in
  let first := firstRow (ceil_div (Z.of_N (innerWidth win)) (resolution c)) in
  let b := Z.to_nat (Z.max (historyBound win (resolution c)) 1) in
  ∃ sk, steps win k (initGrid rnd win OneD (resolution c) (setConfig c st)) = Ok sk
    ∧ config sk = c
    ∧ historyRef sk = drop (S k - b) (generations bits first (S k)).
Proof.
  intros Hmode bits first b. induction k as [|k IH].
  - eexists. split; [done |]. split; [done |].
    replace (1 - b)%nat with 0%nat by (subst b; lia). done.
  - destruct IH as (sk & Hsk & Hcfg & Hhist).
    rewrite steps_snoc, Hsk.
    destruct (step_1D win sk (generationRow bits first k))
      as (s' & Hs' & Hhist' & _ & Hcfg' & _).
    { by rewrite Hcfg. }
    { rewrite Hhist. apply window_last. }
    exists s'. split; [done |]. split; [congruence |].
    rewrite Hhist', Hcfg, Hhist. apply advance_window.
Qed.

(** C6 (as the code has it): in 1D mode, after any number [k] of steps
    following [initGrid], the history holds [min (k + 1) (max B 1)] rows,
    where [B = ceil (innerHeight / resolution)]: never more than
    [max B 1], hence never more than [B] when [B >= 1]; its rows are the
    most recent generations in chronological order, row [j] being
    generation [k + 1 - length + j], so that once the bound is reached
    every further step evicts the oldest row. *)
Theorem history_sliding_window rnd win c st (k : nat) :
  mode c = OneD →
  let B := historyBound win (resolution c) in
  let bits := getRuleBits (rule1D c) in
  let first := firstRow (ceil_div (Z.of_N (innerWidth win)) (resolution c)) in
  ∃ sk, steps win k (initGrid rnd win OneD (resolution c) (setConfig c st)) = Ok sk
    ∧ length (historyRef sk) = (S k `min` Z.to_nat (Z.max B 1))%nat
    ∧ (1 ≤ B → Z.of_nat (length (historyRef sk)) ≤ B)
    ∧ ∀ j : nat, (j < length (historyRef sk))%nat →
        historyRef sk !! j
        = Some (generationRow bits first (S k - length (historyRef sk) + j)).
Proof.
  intros Hmode B bits first.
  destruct (history_after_steps rnd win c st k Hmode) as (sk & Hsk & _ & Hhist).
  exists sk. split; [done |]. rewrite Hhist, window_length.
  split; [done |]. split; [fold B; lia |].
  intros j Hj. by apply window_lookup.
Qed.

Lemma history_sliding_window_witness :
  mode rule90Config = OneD
  ∧ ∃ sk, steps smallWindow 9
            (initGrid blinkerSeed smallWindow OneD 8
               (setConfig rule90Config mountState)) = Ok sk
      ∧ length (historyRef sk) = 5%nat.
Proof.
  split; [reflexivity |].
  destruct (history_sliding_window blinkerSeed smallWindow rule90Config
              mountState 9) as (sk & Hsk & Hlen & _); [reflexivity |].
  exists sk. split; [exact Hsk | exact Hlen].
Defined.

(** On a viewport of height 0 the bound is 0, yet the history keeps one
    row. *)
Lemma history_exceeds_zero_bound :
  ∃ sk, steps flatWindow 1
          (initGrid blinkerSeed flatWindow OneD 8
             (setConfig rule90Config mountState)) = Ok sk
    ∧ historyBound flatWindow 8 < Z.of_nat (length (historyRef sk)).
Proof. eexists. split; [reflexivity |]. vm_compute. reflexivity. Qed.

End HistoryRun.

(** ** Rule 90 *)

Section Rule90.

Implicit Types (row : list Z) (st : State) (win : Window) (c : Config).

Lemma rem_nonneg (n : nat) (a : Z) :
  (0 < n)%nat → 0 ≤ a → rem a (Z.of_nat n) = Some (Z.of_nat (torus n a)).
Proof.
  intros Hn Ha. unfold rem, torus.
  destruct (Z.eqb_spec (Z.of_nat n) 0) as [? | _]; [lia |].
  rewrite Z.rem_mod_nonneg by lia.
  rewrite Z2Nat.id; [done |]. apply Z.mod_pos_bound. lia.
Qed.

Lemma torus_lt (n : nat) (a : Z) : (0 < n)%nat → (torus n a < n)%nat.
Proof.
  intros Hn. unfold torus.
  pose proof (Z.mod_pos_bound a (Z.of_nat n)). lia.
Qed.

Lemma read_Num row (j : nat) :
  (j < length row)%nat →
  read (numRow row) (Some (Z.of_nat j)) = Num (default 0 (row !! j)).
Proof.
  intros Hj. unfold read, index_opt, index, numRow.
  destruct (Z.ltb_spec (Z.of_nat j) 0) as [? | _]; [lia |].
  rewrite Nat2Z.id, list_lookup_fmap.
  by destruct (lookup_lt_is_Some_2 row j Hj) as [x ->].
Qed.

Lemma binary_lookup row (j : nat) :
  binary row → default 0 (row !! j) = 0 ∨ default 0 (row !! j) = 1.
Proof.
  intros Hbin. destruct (row !! j) as [x |] eqn:Hx; [| by left].
  unfold binary in Hbin. rewrite Forall_lookup in Hbin. by apply (Hbin j).
Qed.

(** The table of rule 90 on the eight patterns. *)
Lemma rule90_table (l m r : Z) :
  l = 0 ∨ l = 1 → m = 0 ∨ m = 1 → r = 0 ∨ r = 1 →
  read (getRuleBits 90) (Some (patternIndex (Num l) (Num m) (Num r)))
  = Num (Z.lxor l r).
Proof. by intros [-> | ->] [-> | ->] [-> | ->]. Qed.

(** On every row of binary cells, whatever its width, one step of rule 90
    is the exclusive or of the two neighbours on the ring. *)
Lemma nextRow_rule90 row :
  binary row → nextRow (getRuleBits 90) (numRow row) = numRow (xorRow row).
Proof.
  intros Hbin. apply list_eq. intros i. unfold nextRow, xorRow, numRow.
  rewrite list_lookup_fmap, !list_lookup_imap, list_lookup_fmap.
  destruct (row !! i) as [x |] eqn:Hx; [| done].
  cbn -[read getRuleBits patternIndex torus rem].
  assert (i < length row)%nat as Hi by by eapply lookup_lt_Some.
  rewrite length_fmap.
  replace (Z.of_nat i - 1 + Z.of_nat (length row))
    with ((Z.of_nat i - 1) + 1 * Z.of_nat (length row)) by lia.
  rewrite !rem_nonneg by lia.
  replace (torus (length row) (Z.of_nat i - 1 + 1 * Z.of_nat (length row)))
    with (torus (length row) (Z.of_nat i - 1))
    by (unfold torus; by rewrite Z.mod_add by lia).
  fold (numRow row). rewrite !read_Num by (done || apply torus_lt; lia).
  f_equal. apply rule90_table; by apply binary_lookup.
Qed.

(** C3: with rule 90, a history initialised to one row of width 15, dead
    but for the centre cell at index 7, holds after 7 steps the first eight
    rows of the Sierpinski triangle, each row being the toroidal rule-90
    image of the one before it: every cell the exclusive or of its left and
    right neighbours. *)
Theorem rule90_sierpinski rnd win c st :
  mode c = OneD → rule1D c = 90 →
  ceil_div (Z.of_N (innerWidth win)) (resolution c) = 15 →
  8 ≤ historyBound win (resolution c) →
  let st0 := initGrid rnd win OneD (resolution c) (setConfig c st) in
  historyRef st0 = [numRow (<[7%nat := 1]> (replicate 15 0))]
  ∧ ∃ s7, steps win 7 st0 = Ok s7
      ∧ historyRef s7 = numRow <$> sierpinski15
      ∧ ∀ (t : nat) row, (t < 7)%nat →
          sierpinski15 !! t = Some row →
          sierpinski15 !! S t = Some (xorRow row)
          ∧ nextRow (getRuleBits (rule1D c)) (numRow row) = numRow (xorRow row).
Proof.
  intros Hmode Hrule Hcols Hrows st0.
  split.
  { unfold st0. by rewrite historyRef_initGrid_1D, Hcols. }
  destruct (history_after_steps rnd win c st 7 Hmode) as (s7 & Hs7 & _ & Hhist).
  exists s7. split; [done |]. split.
  - rewrite Hhist, Hrule, Hcols.
    replace (8 - _)%nat with 0%nat by lia. by vm_compute.
  - intros t row Ht Hrow. rewrite Hrule.
    do 7 (destruct t as [|t];
      [injection Hrow as <-; split; [reflexivity | by vm_compute] |]).
    lia.
Qed.

Lemma rule90_sierpinski_witness :
  mode rule90Config = OneD ∧ rule1D rule90Config = 90
  ∧ ceil_div (Z.of_N (innerWidth wideWindow)) (resolution rule90Config) = 15
  ∧ 8 ≤ historyBound wideWindow (resolution rule90Config)
  ∧ ∃ s7, steps wideWindow 7
            (initGrid blinkerSeed wideWindow OneD 8
               (setConfig rule90Config mountState)) = Ok s7
      ∧ historyRef s7 = numRow <$> sierpinski15.
Proof.
  split; [reflexivity |]. split; [reflexivity |]. split; [reflexivity |].
  split; [by vm_compute |].
  destruct (rule90_sierpinski blinkerSeed wideWindow rule90Config mountState)
    as (_ & s7 & Hs7 & Hhist & _);
    [reflexivity | reflexivity | reflexivity | by vm_compute |].
  exists s7. split; [exact Hs7 | exact Hhist].
Defined.

End Rule90.

(** ** Colours *)

Section Colours.

Lemma getCellColor_density c (cycleHue age n : Z) :
  colorMode c = Density →
  getCellColor c cycleHue age n
  = {| colorHue := Z.rem (hue c - n * 25) 360; colorSaturation := 80;
       colorLightness := 40 + n * 5; colorAlpha := "0.9" |}.
Proof. intros Hmode. unfold getCellColor. by rewrite Hmode. Qed.

(** The hue that [%] leaves is the wrapped hue only when the difference is
    not negative; below zero it is off by a full turn. *)
Lemma density_hue_cases c (cycleHue age n : Z) :
  colorMode c = Density → 0 ≤ hue c ≤ 360 → 0 ≤ n ≤ 8 →
  let h := colorHue (getCellColor c cycleHue age n) in
  (n * 25 ≤ hue c → h = (hue c - n * 25) mod 360)
  ∧ (hue c < n * 25 → h = (hue c - n * 25) mod 360 - 360 ∧ h < 0).
Proof.
  intros Hmode Hhue Hn. rewrite getCellColor_density by done. cbn.
  split; intros Hcmp.
  - apply Z.rem_mod_nonneg; lia.
  - assert (Z.rem (hue c - n * 25) 360 = hue c - n * 25) as ->.
    { replace (hue c - n * 25) with (- (n * 25 - hue c)) by lia.
      rewrite Z.rem_opp_l by lia. by rewrite Z.rem_small by lia. }
    assert ((hue c - n * 25) mod 360 = hue c - n * 25 + 360) as ->.
    { symmetry. apply (Z.mod_unique _ _ (-1)); lia. }
    lia.
Qed.

(** C9, evaluated where it fails: with base hue 0 and one live neighbour
    the Density colour has hue [-25], outside [0, 360) and different from
    [(0 - 25) mod 360 = 335]; lightness, saturation and alpha are as
    stated. *)
Theorem density_hue_negative :
  let col := getCellColor (densityConfig 0) 0 1 1 in
  colorHue col = -25
  ∧ ¬ (0 ≤ colorHue col < 360)
  ∧ (hue (densityConfig 0) - 1 * 25) mod 360 = 335
  ∧ colorLightness col = 40 + 1 * 5
  ∧ colorSaturation col = 80
  ∧ colorAlpha col = "0.9"%string.
Proof.
  split; [reflexivity |]. split; [| repeat split; reflexivity].
  change (colorHue (getCellColor (densityConfig 0) 0 1 1)) with (-25). lia.
Qed.

End Colours.

(** ** Pointer interaction *)

Section Interaction.

Implicit Types (st : State) (g : list (list Z)) (h : gmap loc (list Z)).

Lemma rowAt_insert h (l l' : loc) (row : list Z) :
  rowAt (<[l := row]> h) l' = if decide (l = l') then row else rowAt h l'.
Proof.
  unfold rowAt. case_decide as Heq.
  - subst. by rewrite lookup_insert_eq.
  - by rewrite lookup_insert_ne.
Qed.

Lemma index_Some {A} (arr : list A) (i : Z) (a : A) :
  index arr i = Some a ↔ 0 ≤ i ∧ arr !! Z.to_nat i = Some a.
Proof.
  unfold index. destruct (Z.ltb_spec i 0); split;
    try done; try lia; intros [? ?]; try done; lia.
Qed.

Lemma gridOf_lookup st (y : nat) :
  gridOf st !! y = rowAt (rowStore st) <$> gridRef st !! y.
Proof. unfold gridOf. apply list_lookup_fmap. Qed.

(** The handler's test [gridRef.current[y] && gridRef.current[y][x] !==
    undefined] is the bounds check. *)
Lemma inBounds_index st (y x : Z) :
  inBounds (gridOf st) y x ↔
  ∃ l age, index (gridRef st) y = Some l
    ∧ index (rowAt (rowStore st) l) x = Some age.
Proof.
  unfold inBounds. rewrite gridOf_lookup. unfold gridOf.
  rewrite length_fmap. split.
  - intros [Hy Hx].
    destruct (lookup_lt_is_Some_2 (gridRef st) (Z.to_nat y)) as [l Hl]; [lia |].
    rewrite Hl in Hx. cbn in Hx.
    destruct (lookup_lt_is_Some_2 (rowAt (rowStore st) l) (Z.to_nat x))
      as [age Hage]; [lia |].
    exists l, age. rewrite !index_Some. repeat split; (done || lia).
  - intros (l & age & [Hy Hl]%index_Some & [Hx Hage]%index_Some).
    apply lookup_lt_Some in Hl as Hlt. rewrite Hl. cbn.
    apply lookup_lt_Some in Hage. lia.
Qed.

Lemma interaction_1D px py st :
  mode (config st) = OneD → handleCanvasInteraction px py st = st.
Proof. intros Hmode. unfold handleCanvasInteraction. by rewrite Hmode. Qed.

Lemma interaction_outside px py st :
  mode (config st) = TwoD →
  ¬ inBounds (gridOf st)
      (floor_div py (resolution (config st)))
      (floor_div px (resolution (config st))) →
  handleCanvasInteraction px py st = st.
Proof.
  intros Hmode Hout. unfold handleCanvasInteraction. rewrite Hmode.
  destruct (index (gridRef st) _) as [l |] eqn:Hl; [| done].
  destruct (index (rowAt (rowStore st) l) _) as [age |] eqn:Hage; [| done].
  destruct Hout. apply inBounds_index. eauto.
Qed.

Lemma interaction_inside px py st :
  mode (config st) = TwoD →
  let x := floor_div px (resolution (config st)) in
  let y := floor_div py (resolution (config st)) in
  inBounds (gridOf st) y x →
  ∃ l row age,
    gridRef st !! Z.to_nat y = Some l
    ∧ row = rowAt (rowStore st) l
    ∧ row !! Z.to_nat x = Some age
    ∧ handleCanvasInteraction px py st
      = setActivePreset None
          (setGrid
             (<[l := <[Z.to_nat x := if 0 <? age then 0 else 1]> row]> (rowStore st))
             (gridRef st) st).
Proof.
  intros Hmode x y (l & age & Hl & Hage)%inBounds_index.
  exists l, (rowAt (rowStore st) l), age.
  apply index_Some in Hl as Hl'. apply index_Some in Hage as Hage'.
  split; [apply Hl' |]. split; [done |]. split; [apply Hage' |].
  unfold handleCanvasInteraction. rewrite Hmode.
  fold x y. by rewrite Hl, Hage.
Qed.

(** C8: the handler does nothing in 1D mode, wherever the pointer is; in
    2D mode it addresses the cell at the pixel position divided by the
    resolution, rounding down, and flips that cell when it lies inside the
    grid (an age above 0 becomes 0, age 0 becomes 1), whereas for every
    position outside the grid the state, and so the grid, is left exactly
    as it was. *)
Theorem toggle_cell (px py : Z) st :
  let x := floor_div px (resolution (config st)) in
  let y := floor_div py (resolution (config st)) in
  let st' := handleCanvasInteraction px py st in
  x = px / Z.pos (resolution (config st))
  ∧ y = py / Z.pos (resolution (config st))
  ∧ (mode (config st) = OneD → st' = st)
  ∧ (mode (config st) = TwoD → inBounds (gridOf st) y x →
       let old := cell (gridOf st) (Z.to_nat y) (Z.to_nat x) in
       let new := cell (gridOf st') (Z.to_nat y) (Z.to_nat x) in
       (0 < old → new = 0) ∧ (old = 0 → new = 1)
       ∧ new = (if 0 <? old then 0 else 1))
  ∧ (mode (config st) = TwoD → ¬ inBounds (gridOf st) y x → st' = st).
Proof.
  intros x y st'. split; [done |]. split; [done |].
  split; [apply interaction_1D |].
  split; [| apply interaction_outside].
  intros Hmode Hin old new.
  destruct (interaction_inside px py st Hmode Hin)
    as (l & row & age & Hl & Hrow & Hage & Hst').
  fold y in Hl. fold x in Hage, Hst'.
  assert (old = age) as Hold.
  { unfold old. apply (cell_lookup _ _ _ row); [| done].
    rewrite gridOf_lookup, Hl. cbn. by rewrite Hrow. }
  assert (new = if 0 <? age then 0 else 1) as Hnew.
  { unfold new, st'. rewrite Hst'.
    apply (cell_lookup _ _ _
      (<[Z.to_nat x := if 0 <? age then 0 else 1]> row)).
    - rewrite gridOf_lookup. cbn [gridRef rowStore setActivePreset setGrid].
      rewrite Hl. cbn. rewrite rowAt_insert. by rewrite decide_True.
    - apply list_lookup_insert_eq. by eapply lookup_lt_Some. }
  rewrite Hnew, Hold. repeat split.
  - intros Hpos. by destruct (Z.ltb_spec 0 age); [| lia].
  - by intros ->.
Qed.

(** A click in the middle of the blinker kills its centre cell; a click
    past the right edge or above the canvas changes nothing. *)
Example pointer_examples :
  cell (gridOf blinkerState) 2 2 = 1
  ∧ cell (gridOf (handleCanvasInteraction 20 20 blinkerState)) 2 2 = 0
  ∧ cell (gridOf (handleCanvasInteraction 20 4 blinkerState)) 0 2 = 1
  ∧ handleCanvasInteraction 40 20 blinkerState = blinkerState
  ∧ handleCanvasInteraction 20 (-1) blinkerState = blinkerState.
Proof. repeat split; by vm_compute. Qed.

Lemma reachable_selectPreset rnd win key p st :
  reachable st → reachable (selectPreset rnd win key p st).
Proof.
  intros Hreach. unfold selectPreset.
  by apply reach_initGrid, reach_setActivePreset, reach_setConfig.
Qed.

(** The row arrays of the grid are pairwise distinct. *)
Lemma reachable_NoDup st : reachable st → NoDup (gridRef st).
Proof.
  induction 1 as [| c st _ IH | p st _ IH | rnd win m res st _ IH
                  | win st st' _ IH Hstep | px py st _ IH].
  - constructor.
  - done.
  - done.
  - unfold initGrid. cbv zeta. destruct m; [done |].
    destruct (allocRows _ _) as [h ls] eqn:Halloc.
    by destruct (allocRows_spec _ _ _ _ Halloc) as (_ & Hnodup & _).
  - destruct (mode (config st)) eqn:Hmode.
    + destruct (historyRef st) as [|r hist] eqn:Hhist.
      { by rewrite step_1D_empty in Hstep. }
      destruct (last_nonempty (r :: hist)) as [current Hlast]; [done |].
      rewrite <- Hhist in Hlast.
      destruct (step_1D win st current Hmode Hlast) as (s & Hs & _ & _ & _ & _ & Hg).
      rewrite Hs in Hstep. injection Hstep as <-. by rewrite Hg.
    + destruct (gridOf st) as [|r g] eqn:Hgrid.
      { rewrite step_2D_empty in Hstep by done. by injection Hstep as <-. }
      destruct (step_2D win st Hmode) as (s & Hs & _ & Hnodup & _).
      { by rewrite Hgrid. }
      rewrite Hs in Hstep. by injection Hstep as <-.
  - unfold handleCanvasInteraction.
    destruct (mode (config st)); [done |].
    destruct (index (gridRef st) _) as [l |]; [| done].
    by destruct (index (rowAt (rowStore st) l) _).
Qed.

(** C10: in 2D mode, for a position inside the grid, the handler changes
    at most the addressed cell: the grid keeps its shape, every other cell
    reads as before, and the history, the generation counter, the
    configuration and the cycle hue are untouched. *)
Theorem toggle_frame (px py : Z) st :
  reachable st → mode (config st) = TwoD →
  let x := floor_div px (resolution (config st)) in
  let y := floor_div py (resolution (config st)) in
  inBounds (gridOf st) y x →
  let st' := handleCanvasInteraction px py st in
  length (gridOf st') = length (gridOf st)
  ∧ (∀ y' : nat, length <$> gridOf st' !! y' = length <$> gridOf st !! y')
  ∧ (∀ y' x' : nat, (y', x') ≠ (Z.to_nat y, Z.to_nat x) →
       gridOf st' !! y' ≫= (.!! x') = gridOf st !! y' ≫= (.!! x'))
  ∧ historyRef st' = historyRef st
  ∧ generation st' = generation st
  ∧ config st' = config st
  ∧ cycleHueRef st' = cycleHueRef st.
Proof.
  intros Hreach Hmode x y Hin st'.
  destruct (interaction_inside px py st Hmode Hin)
    as (l & row & age & Hl & Hrow & Hage & Hst').
  fold y in Hl. fold x in Hage, Hst'.
  pose proof (reachable_NoDup st Hreach) as Hnodup.
  assert (∀ y' : nat, gridOf st' !! y'
    = (λ l', if decide (l = l')
             then <[Z.to_nat x := if 0 <? age then 0 else 1]> row
             else rowAt (rowStore st) l') <$> gridRef st !! y') as Hrows.
  { intros y'. unfold st'. rewrite Hst', gridOf_lookup.
    cbn [gridRef rowStore setActivePreset setGrid].
    destruct (gridRef st !! y') as [l' |]; [| done]. cbn.
    by rewrite rowAt_insert. }
  split.
  { unfold st'. rewrite Hst'. unfold gridOf. by rewrite !length_fmap. }
  split.
  { intros y'. rewrite Hrows, gridOf_lookup.
    destruct (gridRef st !! y') as [l' |]; [| done]. cbn.
    case_decide as Heq; [| done]. subst l'. by rewrite length_insert, Hrow. }
  split; [| by unfold st'; rewrite Hst'].
  intros y' x' Hne. rewrite Hrows, gridOf_lookup.
  destruct (gridRef st !! y') as [l' |] eqn:Hl'; [| done]. cbn.
  case_decide as Heq; [| done]. subst l'.
  assert (y' = Z.to_nat y) as -> by (eapply NoDup_lookup; eauto).
  rewrite <- Hrow. apply list_lookup_insert_ne. congruence.
Qed.

Lemma toggle_frame_witness :
  reachable blinkerState ∧ mode (config blinkerState) = TwoD
  ∧ inBounds (gridOf blinkerState) (floor_div 20 8) (floor_div 20 8)
  ∧ generation (handleCanvasInteraction 20 20 blinkerState)
    = generation blinkerState
  ∧ historyRef (handleCanvasInteraction 20 20 blinkerState)
    = historyRef blinkerState.
Proof.
  assert (reachable blinkerState) as Hreach
    by apply reach_initGrid, reach_mount.
  assert (inBounds (gridOf blinkerState) (floor_div 20 8) (floor_div 20 8))
    as Hin by (vm_compute; repeat split; discriminate).
  split; [exact Hreach |]. split; [reflexivity |]. split; [exact Hin |].
  destruct (toggle_frame 20 20 blinkerState Hreach eq_refl Hin)
    as (_ & _ & _ & Hhist & Hgen & _).
  split; [exact Hgen | exact Hhist].
Defined.

(** Distinctness of the row arrays is what the frame property rests on:
    were one array shared by two rows, a click on the first row would flip
    the cell below it too. *)
Example shared_row_breaks_frame :
  ¬ reachable sharedRowState
  ∧ cell (gridOf sharedRowState) 1 0 = 0
  ∧ cell (gridOf (handleCanvasInteraction 0 0 sharedRowState)) 1 0 = 1.
Proof.
  split; [| split; by vm_compute].
  intros Hnodup%reachable_NoDup. cbn in Hnodup.
  apply NoDup_cons_1_1 in Hnodup. apply Hnodup, list_elem_of_here.
Qed.

End Interaction.

(** ** Ages *)

Section Ages.

Implicit Types (st : State) (g : list (list Z)) (c : Config).

Lemma nextAge_range c (age n : Z) : 0 ≤ nextAge c age n ≤ 100.
Proof.
  unfold nextAge.
  destruct (Z.ltb_spec 0 age), (includes _ n); lia.
Qed.

Lemma nextAge_alive c (age n : Z) :
  0 < age →
  nextAge c age n = Z.min (age + 1) 100 ∨ nextAge c age n = 0.
Proof.
  intros Hage. unfold nextAge.
  destruct (Z.ltb_spec 0 age); [| lia]. destruct (includes _ n); auto.
Qed.

Lemma nextGrid_bounded c g : agesBounded (nextGrid c g).
Proof.
  unfold agesBounded. rewrite Forall_lookup. intros y row' Hy.
  rewrite Forall_lookup. intros x a Hx.
  destruct (g !! y) as [row |] eqn:Hrow.
  - destruct (nextGrid_lookup c g y row Hrow) as (r & Hr & Hlen & Hcells).
    rewrite Hr in Hy. injection Hy as <-.
    destruct (row !! x) as [age |] eqn:Hage.
    + rewrite (Hcells x age Hage) in Hx. injection Hx as <-.
      apply nextAge_range.
    + apply lookup_ge_None in Hage. apply lookup_lt_Some in Hx. lia.
  - apply lookup_ge_None in Hrow. apply lookup_lt_Some in Hy.
    rewrite length_nextGrid in Hy. lia.
Qed.

Lemma seedGrid_bounded rnd (rows cols : Z) : agesBounded (seedGrid rnd rows cols).
Proof.
  unfold agesBounded, seedGrid. rewrite Forall_fmap. apply Forall_true.
  intros y. cbn. rewrite Forall_fmap. apply Forall_true.
  intros x. cbn. destruct (rnd y x); lia.
Qed.

Lemma agesBounded_cell g (y x : nat) : agesBounded g → 0 ≤ cell g y x ≤ 100.
Proof.
  intros Hb. unfold cell.
  destruct (g !! y) as [row |] eqn:Hrow; cbn; [| lia].
  destruct (row !! x) as [a |] eqn:Ha; cbn; [| lia].
  unfold agesBounded in Hb. rewrite Forall_lookup in Hb.
  specialize (Hb y row Hrow). rewrite Forall_lookup in Hb. by apply (Hb x).
Qed.

(** Along every run of the program the ages stay within 0..100. *)
Lemma reachable_bounded st : reachable st → agesBounded (gridOf st).
Proof.
  induction 1 as [| c st _ IH | p st _ IH | rnd win m res st _ IH
                  | win st st' _ IH Hstep | px py st _ IH].
  - constructor.
  - done.
  - done.
  - destruct m; [done |]. rewrite gridOf_initGrid_2D. apply seedGrid_bounded.
  - destruct (mode (config st)) eqn:Hmode.
    + destruct (historyRef st) as [|r hist] eqn:Hhist.
      { by rewrite step_1D_empty in Hstep. }
      destruct (last_nonempty (r :: hist)) as [current Hlast]; [done |].
      rewrite <- Hhist in Hlast.
      destruct (step_1D win st current Hmode Hlast)
        as (s & Hs & _ & _ & _ & Hstore & Hg).
      rewrite Hs in Hstep. injection Hstep as <-.
      unfold gridOf in *. by rewrite Hstore, Hg.
    + destruct (gridOf st) as [|r g] eqn:Hgrid.
      { rewrite step_2D_empty in Hstep by done. injection Hstep as <-.
        by rewrite Hgrid. }
      destruct (step_2D win st Hmode) as (s & Hs & Hnext & _).
      { by rewrite Hgrid. }
      rewrite Hs in Hstep. injection Hstep as <-.
      rewrite Hnext. apply nextGrid_bounded.
  - destruct (mode (config st)) eqn:Hmode.
    { by rewrite interaction_1D. }
    destruct (decide (inBounds (gridOf st)
      (floor_div py (resolution (config st)))
      (floor_div px (resolution (config st))))) as [Hin | Hout].
    2: { by rewrite interaction_outside. }
    destruct (interaction_inside px py st Hmode Hin)
      as (l & row & age & Hl & Hrow & Hage & ->).
    unfold agesBounded in *. rewrite Forall_lookup in IH.
    rewrite Forall_lookup. intros y' row' Hy'.
    rewrite gridOf_lookup in Hy'.
    cbn [gridRef rowStore setActivePreset setGrid] in Hy'.
    destruct (gridRef st !! y') as [l' |] eqn:Hl'; [| done].
    injection Hy' as <-. rewrite rowAt_insert.
    case_decide as Heq.
    + apply Forall_insert.
      * apply (IH (Z.to_nat (floor_div py (resolution (config st))))).
        rewrite gridOf_lookup, Hl. cbn. by rewrite Hrow.
      * destruct (0 <? age); lia.
    + apply (IH y'). by rewrite gridOf_lookup, Hl'.
Qed.

(** What one step does to a live cell. *)
Lemma step_live_cell win st st' (y x : nat) :
  step win st = Ok st' → 0 < cell (gridOf st) y x →
  (mode (config st) = TwoD →
     cell (gridOf st') y x = Z.min (cell (gridOf st) y x + 1) 100
     ∨ cell (gridOf st') y x = 0)
  ∧ (mode (config st) = OneD → cell (gridOf st') y x = cell (gridOf st) y x)
  ∧ config st' = config st.
Proof.
  intros Hstep Halive. destruct (mode (config st)) eqn:Hmode.
  - destruct (historyRef st) as [|r hist] eqn:Hhist.
    { by rewrite step_1D_empty in Hstep. }
    destruct (last_nonempty (r :: hist)) as [current Hlast]; [done |].
    rewrite <- Hhist in Hlast.
    destruct (step_1D win st current Hmode Hlast)
      as (s & Hs & _ & _ & Hcfg & Hstore & Hg).
    rewrite Hs in Hstep. injection Hstep as <-.
    split; [done |]. split; [| done]. intros _.
    unfold gridOf. by rewrite Hstore, Hg.
  - destruct (cell_alive_lookup _ _ _ Halive) as (row & Hrow & Hage).
    destruct (step_2D win st Hmode) as (s & Hs & Hnext & _ & _ & _ & Hcfg & _).
    { intros Hnil. by rewrite Hnil in Hrow. }
    rewrite Hs in Hstep. injection Hstep as <-.
    split; [| done]. intros _. rewrite Hnext.
    destruct (nextGrid_lookup (config st) _ _ _ Hrow) as (row' & Hrow' & _ & Hcells).
    rewrite (cell_lookup _ _ _ _ _ Hrow' (Hcells _ _ Hage)).
    by apply nextAge_alive.
Qed.

(** A cell that stays alive through [k] steps ages by one per step up to
    the cap. *)
Lemma survivor_age win (y x : nat) (k : nat) st :
  mode (config st) = TwoD → cell (gridOf st) y x ≤ 100 →
  (∀ i : nat, (i ≤ k)%nat →
     ∃ si, steps win i st = Ok si ∧ 0 < cell (gridOf si) y x) →
  ∃ sk, steps win k st = Ok sk
    ∧ cell (gridOf sk) y x = Z.min (cell (gridOf st) y x + Z.of_nat k) 100.
Proof.
  revert st. induction k as [|k IH]; intros st Hmode Hle Halive.
  - exists st. split; [done |]. lia.
  - destruct (Halive 0%nat) as (s0 & Hs0 & Halive0); [lia |].
    injection Hs0 as <-.
    destruct (Halive 1%nat) as (s1 & Hs1 & Halive1); [lia |].
    cbn [steps] in Hs1. destruct (step win st) as [s |] eqn:Hstep; [| done].
    injection Hs1 as ->.
    destruct (step_live_cell win st s1 y x Hstep Halive0) as (Hage & _ & Hcfg).
    destruct (Hage Hmode) as [Hage1 | Hzero]; [| lia].
    destruct (IH s1) as (sk & Hsk & Hagek).
    + by rewrite Hcfg.
    + lia.
    + intros i Hi. destruct (Halive (S i)) as (si & Hsi & Halivei); [lia |].
      cbn [steps] in Hsi. rewrite Hstep in Hsi. eauto.
    + exists sk. cbn [steps]. rewrite Hstep. split; [done |]. lia.
Qed.

(** C7: in every state the program can reach (after [initGrid] and any
    sequence of steps and pointer interactions) every age of the 2D grid
    lies in 0..100; a cell that stays alive through [k] consecutive steps
    has age [min (age + k) 100], which is exactly 100 from 99 steps on; and
    a cell that a step kills has age 0 right after that step. *)
Theorem ages_within_bounds st :
  reachable st →
  (∀ y x : nat, 0 ≤ cell (gridOf st) y x ≤ 100)
  ∧ agesBounded (gridOf st)
  ∧ (∀ win (k y x : nat), mode (config st) = TwoD →
       (∀ i : nat, (i ≤ k)%nat →
          ∃ si, steps win i st = Ok si ∧ 0 < cell (gridOf si) y x) →
       ∃ sk, steps win k st = Ok sk
         ∧ cell (gridOf sk) y x = Z.min (cell (gridOf st) y x + Z.of_nat k) 100
         ∧ ((99 ≤ k)%nat → cell (gridOf sk) y x = 100))
  ∧ (∀ win st' (y x : nat), step win st = Ok st' →
       0 < cell (gridOf st) y x → ¬ 0 < cell (gridOf st') y x →
       cell (gridOf st') y x = 0).
Proof.
  intros Hreach. pose proof (reachable_bounded st Hreach) as Hb.
  split; [intros y x; by apply agesBounded_cell |]. split; [done |].
  split.
  - intros win k y x Hmode Halive.
    destruct (survivor_age win y x k st Hmode) as (sk & Hsk & Hage);
      [by apply agesBounded_cell | done |].
    exists sk. split; [done |]. split; [done |].
    intros Hk. destruct (Halive 0%nat) as (s0 & Hs0 & Halive0); [lia |].
    injection Hs0 as <-. lia.
  - intros win st' y x Hstep Halive Hdead.
    destruct (step_live_cell win st st' y x Hstep Halive) as (H2 & H1 & _).
    destruct (mode (config st)).
    + rewrite H1 in Hdead by done. done.
    + destruct H2 as [Hmin | Hzero]; [done | | done]. lia.
Qed.

Lemma ages_within_bounds_witness :
  reachable blockState
  ∧ 0 ≤ cell (gridOf blockState) 1 1 ≤ 100
  ∧ ∃ s1, steps smallWindow 1 blockState = Ok s1
      ∧ cell (gridOf s1) 1 1 = 2.
Proof.
  assert (reachable blockState) as Hreach
    by apply reach_initGrid, reach_mount.
  split; [exact Hreach |].
  destruct (ages_within_bounds blockState Hreach) as (Hrange & _ & Hrun & _).
  split; [apply Hrange |].
  destruct (Hrun smallWindow 1%nat 1%nat 1%nat eq_refl) as (s1 & Hs1 & Hage & _).
  - intros i Hi. destruct i as [|[|i]]; [| | lia].
    + eexists. split; [reflexivity |]. by vm_compute.
    + eexists. split; [reflexivity |]. by vm_compute.
  - exists s1. split; [exact Hs1 | exact Hage].
Defined.

(** A block of the Game of Life is a still life: stepped 120 times, its
    cells have reached the cap and sit at exactly 100. *)
Example block_age_capped :
  match steps smallWindow 120 blockState with
  | Ok s => Some (gridOf s)
  | TypeError => None
  end
  = Some [ [0; 0; 0; 0; 0]; [0; 100; 100; 0; 0]; [0; 100; 100; 0; 0];
           [0; 0; 0; 0; 0]; [0; 0; 0; 0; 0] ].
Proof. vm_compute. reflexivity. Qed.

End Ages.

(** * Further properties of the code *)

(** ** The rule table outside 0..255 *)

Section RuleBitsBeyond.

Lemma length_pos_digits2 (p : positive) :
  Z.of_nat (length (pos_digits2 p)) = Z.log2 (Z.pos p) + 1.
Proof.
  induction p as [q IH | q IH |]; cbn [pos_digits2].
  - rewrite length_app, Nat2Z.inj_add, IH, Pos2Z.inj_xI.
    rewrite Z.log2_succ_double by lia. cbn [length]. lia.
  - rewrite length_app, Nat2Z.inj_add, IH, Pos2Z.inj_xO.
    rewrite Z.log2_double by lia. cbn [length]. lia.
  - done.
Qed.

Lemma getRuleBits_bits (n : Z) :
  0 ≤ n →
  length (getRuleBits n) = (8 `max` Z.to_nat (Z.log2 n + 1))%nat
  ∧ ∀ k : nat, (k < length (getRuleBits n))%nat →
      getRuleBits n !! k = Some (Num (Z.b2z (Z.testbit n (Z.of_nat k)))).
Proof.
  intros Hn. rewrite getRuleBits_unfold. unfold toString2.
  rewrite list_ascii_of_string_of_list_ascii.
  rewrite length_app, length_map, length_rev, length_replicate.
  destruct n as [|p|p]; [| | lia].
  - split; [done |]. intros k Hk. rewrite Z.bits_0.
    cbn in Hk. by do 8 (destruct k as [|k]; [done |]); lia.
  - pose proof (length_pos_digits2 p) as Hlen.
    split; [lia |]. intros k Hk.
    destruct (decide (k < length (pos_digits2 p))%nat) as [Hlt | Hge].
    + rewrite lookup_app_l by (by rewrite length_map, length_rev).
      by apply pos_digits2_bits.
    + rewrite lookup_app_r by (rewrite length_map, length_rev; lia).
      rewrite length_map, length_rev, testbit_above by lia.
      apply lookup_replicate_2. lia.
Qed.

(** [padStart] pads but never truncates: for every non-negative rule number
    the table has as many entries as the number has binary digits, at least
    8, and entry [k] is bit [k] of the number. *)
Theorem getRuleBits_nonneg (n : Z) :
  0 ≤ n →
  length (getRuleBits n) = (8 `max` Z.to_nat (Z.log2 n + 1))%nat
  ∧ ∀ k : nat, (k < length (getRuleBits n))%nat →
      getRuleBits n !! k = Some (Num (Z.b2z (Z.testbit n (Z.of_nat k)))).
Proof. apply getRuleBits_bits. Qed.

Lemma getRuleBits_nonneg_witness :
  0 ≤ 300
  ∧ length (getRuleBits 300) = 9%nat
  ∧ getRuleBits 300 !! 8%nat = Some (Num 1).
Proof.
  split; [lia |].
  destruct (getRuleBits_nonneg 300) as [Hlen Hbits]; [lia |].
  split; [exact Hlen |]. apply (Hbits 8%nat). rewrite Hlen. cbn. lia.
Defined.

(** A negative rule number puts the minus sign of [toString] into the
    table, where [Number] turns it into [NaN]. *)
Theorem getRuleBits_negative (n : Z) : n < 0 → NaN ∈ getRuleBits n.
Proof.
  intros Hn. rewrite getRuleBits_unfold. unfold toString2.
  rewrite list_ascii_of_string_of_list_ascii.
  destruct n as [|p|p]; [lia | lia |].
  apply elem_of_app. left. cbn [rev]. rewrite map_app.
  apply elem_of_app. right. apply list_elem_of_here.
Qed.

Lemma getRuleBits_negative_witness : -3 < 0 ∧ NaN ∈ getRuleBits (-3).
Proof. split; [lia |]. apply (getRuleBits_negative (-3)). lia. Defined.

End RuleBitsBeyond.

(** ** What [initGrid] builds *)

Section Init.

Implicit Types (st : State) (win : Window).

Lemma ceil_div_nonneg (a : N) (b : positive) : 0 ≤ ceil_div (Z.of_N a) b.
Proof.
  unfold ceil_div.
  assert (- Z.of_N a / Z.pos b ≤ 0); [| lia].
  apply Z.div_le_upper_bound; lia.
Qed.

Lemma seedGrid_lookup rnd (rows cols : Z) (y : nat) :
  (y < Z.to_nat rows)%nat →
  seedGrid rnd rows cols !! y
  = Some ((λ x, if rnd y x then 1 else 0) <$> seq 0 (Z.to_nat cols)).
Proof.
  intros Hy. unfold seedGrid. by rewrite list_lookup_fmap, lookup_seq_lt.
Qed.

(** In 2D mode [initGrid] builds a grid of [ceil (height / res)] rows of
    [ceil (width / res)] cells each, cell [(y, x)] being 1 exactly when its
    draw succeeded and 0 otherwise, in row arrays of their own; it resets
    the generation counter and leaves the 1D history, the configuration and
    the cycle hue as they were. *)
Theorem initGrid_2D_shape rnd win res st :
  let rows := Z.to_nat (ceil_div (Z.of_N (innerHeight win)) res) in
  let cols := Z.to_nat (ceil_div (Z.of_N (innerWidth win)) res) in
  let st' := initGrid rnd win TwoD res st in
  length (gridOf st') = rows
  ∧ rectangular cols (gridOf st')
  ∧ (∀ y x : nat, (y < rows)%nat → (x < cols)%nat →
       cell (gridOf st') y x = if rnd y x then 1 else 0)
  ∧ NoDup (gridRef st')
  ∧ generation st' = 0
  ∧ historyRef st' = historyRef st
  ∧ config st' = config st
  ∧ cycleHueRef st' = cycleHueRef st.
Proof.
  intros rows cols st'. unfold st'. rewrite gridOf_initGrid_2D.
  split; [apply length_seedGrid |]. split; [| split; [| split]].
  - unfold rectangular, seedGrid. rewrite Forall_fmap. apply Forall_true.
    intros y. cbn. by rewrite length_fmap, length_seq.
  - intros y x Hy Hx. apply (cell_lookup _ _ _ _ _ (seedGrid_lookup _ _ _ _ Hy)).
    by rewrite list_lookup_fmap, lookup_seq_lt.
  - unfold initGrid. cbv zeta.
    destruct (allocRows _ _) as [h ls] eqn:Halloc.
    by destruct (allocRows_spec _ _ _ _ Halloc) as (_ & Hnodup & _).
  - unfold initGrid. cbv zeta. by destruct (allocRows _ _).
Qed.

Lemma firstRow_seedRow (cols : nat) :
  firstRow (Z.of_nat cols) = numRow (seedRow cols).
Proof.
  unfold firstRow, array_set. rewrite Nat2Z.id, length_replicate.
  destruct cols as [|n]; [done |].
  change 2 with (Z.of_nat 2). rewrite <- Nat2Z.inj_div, Nat2Z.id.
  assert (S n / 2 < S n)%nat as Hlt by (apply Nat.div_lt; lia).
  destruct (Nat.ltb_spec (S n / 2) (S n)) as [_ | ?]; [| lia].
  unfold seedRow, numRow. by rewrite list_fmap_insert, fmap_replicate.
Qed.

(** In 1D mode [initGrid] leaves a history of one row: as wide as the
    viewport has columns, dead but for the cell at index [floor (cols / 2)],
    and, on a viewport without columns, the one-cell row [[1]] that the
    write past the end of the empty array creates.  The 2D grid is not
    touched. *)
Theorem initGrid_1D_row rnd win res st :
  let cols := Z.to_nat (ceil_div (Z.of_N (innerWidth win)) res) in
  let st' := initGrid rnd win OneD res st in
  historyRef st' = [numRow (seedRow cols)]
  ∧ length (seedRow cols) = (cols `max` 1)%nat
  ∧ (∀ i : nat, (i < cols)%nat →
       seedRow cols !! i = Some (if decide (i = cols / 2)%nat then 1 else 0))
  ∧ (cols = 0%nat → seedRow cols = [1])
  ∧ generation st' = 0
  ∧ gridOf st' = gridOf st
  ∧ config st' = config st.
Proof.
  intros cols st'. split; [| split; [| split; [| split]]]; try done.
  - unfold st'. rewrite historyRef_initGrid_1D, <- firstRow_seedRow.
    unfold cols. rewrite Z2Nat.id by apply ceil_div_nonneg. done.
  - destruct cols as [|n]; [done |]. cbn [seedRow].
    rewrite length_insert, length_replicate. lia.
  - intros i Hi. destruct cols as [|n]; [lia |]. cbn [seedRow].
    rewrite list_lookup_insert, length_replicate.
    assert (S n / 2 < S n)%nat by (apply Nat.div_lt; lia).
    destruct (decide (i = S n / 2)%nat) as [-> | Hne].
    + by rewrite decide_True.
    + rewrite decide_False by (intros [? _]; congruence).
      by apply lookup_replicate_2.
  - by intros ->.
Qed.

End Init.

(** ** The 1D automaton is the elementary rule *)

Section Elementary.

Implicit Types (row : list Z) (st : State) (win : Window) (c : Config).

Lemma patternIndex_binary (l m r : Z) :
  l = 0 ∨ l = 1 → m = 0 ∨ m = 1 → r = 0 ∨ r = 1 →
  patternIndex (Num l) (Num m) (Num r) = 4 * l + 2 * m + r.
Proof. by intros [-> | ->] [-> | ->] [-> | ->]. Qed.

Lemma rule_table (n l m r : Z) :
  0 ≤ n → l = 0 ∨ l = 1 → m = 0 ∨ m = 1 → r = 0 ∨ r = 1 →
  read (getRuleBits n) (Some (patternIndex (Num l) (Num m) (Num r)))
  = Num (Z.b2z (Z.testbit n (4 * l + 2 * m + r))).
Proof.
  intros Hn Hl Hm Hr. rewrite patternIndex_binary by done.
  destruct (getRuleBits_bits n Hn) as [Hlen Hbits].
  unfold read, index_opt, index.
  destruct (Z.ltb_spec (4 * l + 2 * m + r) 0) as [? | _]; [lia |].
  rewrite Hbits by lia. cbn. by rewrite Z2Nat.id by lia.
Qed.

Lemma nextRow_ruleRow (n : Z) row :
  0 ≤ n → binary row →
  nextRow (getRuleBits n) (numRow row) = numRow (ruleRow n row).
Proof.
  intros Hn Hbin. apply list_eq. intros i. unfold nextRow, ruleRow, numRow.
  rewrite list_lookup_fmap, !list_lookup_imap, list_lookup_fmap.
  destruct (row !! i) as [x |] eqn:Hx; [| done].
  cbn -[read getRuleBits patternIndex torus rem Z.testbit Z.mul].
  assert (i < length row)%nat as Hi by by eapply lookup_lt_Some.
  rewrite length_fmap.
  replace (Z.of_nat i - 1 + Z.of_nat (length row))
    with ((Z.of_nat i - 1) + 1 * Z.of_nat (length row)) by lia.
  rewrite !rem_nonneg by lia.
  replace (torus (length row) (Z.of_nat i - 1 + 1 * Z.of_nat (length row)))
    with (torus (length row) (Z.of_nat i - 1))
    by (unfold torus; by rewrite Z.mod_add by lia).
  fold (numRow row). rewrite !read_Num by (done || apply torus_lt; lia).
  rewrite Hx. cbn [default]. f_equal.
  apply rule_table; try (by apply binary_lookup); try done.
  unfold binary in Hbin. rewrite Forall_lookup in Hbin. by apply (Hbin i).
Qed.

Lemma length_ruleRow (n : Z) row : length (ruleRow n row) = length row.
Proof. unfold ruleRow. apply length_imap. Qed.

Lemma binary_ruleRow (n : Z) row : binary (ruleRow n row).
Proof.
  unfold binary, ruleRow. rewrite Forall_lookup. intros i x.
  rewrite list_lookup_imap. destruct (row !! i); [| done]. cbn.
  intros [= <-]. destruct (Z.testbit _ _); auto.
Qed.

Lemma ruleRow_mod (n : Z) row :
  binary row → ruleRow (n mod 256) row = ruleRow n row.
Proof.
  intros Hbin. apply list_eq. intros i. unfold ruleRow.
  rewrite !list_lookup_imap. destruct (row !! i) as [x |] eqn:Hx; [| done].
  cbn -[Z.testbit Z.mul Z.modulo]. do 2 f_equal.
  change 256 with (2 ^ 8). apply Z.mod_pow2_bits_low.
  pose proof (binary_lookup row (torus (length row) (Z.of_nat i - 1)) Hbin).
  pose proof (binary_lookup row (torus (length row) (Z.of_nat i + 1)) Hbin).
  unfold binary in Hbin. rewrite Forall_lookup in Hbin.
  pose proof (Hbin i x Hx). lia.
Qed.

(** On a row of binary cells, whatever its width, and for every
    non-negative rule number, one 1D step is the elementary cellular
    automaton on the ring: cell [i] becomes bit
    [4 * left + 2 * centre + right] of the rule number.  The result is again
    binary and of the same width, and only the low eight bits of the rule
    number matter. *)
Theorem nextRow_elementary (n : Z) row :
  0 ≤ n → binary row →
  nextRow (getRuleBits n) (numRow row) = numRow (ruleRow n row)
  ∧ binary (ruleRow n row)
  ∧ length (ruleRow n row) = length row
  ∧ nextRow (getRuleBits (n mod 256)) (numRow row)
    = nextRow (getRuleBits n) (numRow row).
Proof.
  intros Hn Hbin. split; [by apply nextRow_ruleRow |].
  split; [apply binary_ruleRow |]. split; [apply length_ruleRow |].
  rewrite !nextRow_ruleRow by (done || apply Z.mod_pos_bound; lia).
  by rewrite ruleRow_mod.
Qed.

Lemma nextRow_elementary_witness :
  0 ≤ 286 ∧ binary [0; 1; 1; 0; 1]
  ∧ nextRow (getRuleBits 286) (numRow [0; 1; 1; 0; 1])
    = nextRow (getRuleBits 30) (numRow [0; 1; 1; 0; 1]).
Proof.
  assert (binary [0; 1; 1; 0; 1]) as Hbin by (repeat constructor; auto).
  split; [lia |]. split; [exact Hbin |].
  destruct (nextRow_elementary 286 [0; 1; 1; 0; 1]) as (_ & _ & _ & Hmod);
    [lia | exact Hbin |].
  symmetry. exact Hmod.
Defined.

Lemma binary_seedRow (cols : nat) : binary (seedRow cols).
Proof.
  unfold binary. destruct cols as [|n]; cbn [seedRow].
  - constructor; [by right | constructor].
  - apply Forall_insert; [| by right]. apply Forall_replicate. by left.
Qed.

Lemma generationRow_ruleRow (n : Z) row (k : nat) :
  0 ≤ n → binary row →
  generationRow (getRuleBits n) (numRow row) k
  = numRow (Nat.iter k (ruleRow n) row)
  ∧ binary (Nat.iter k (ruleRow n) row)
  ∧ length (Nat.iter k (ruleRow n) row) = length row.
Proof.
  intros Hn Hbin. induction k as [|k (IHrow & IHbin & IHlen)]; [done |].
  change (generationRow (getRuleBits n) (numRow row) (S k))
    with (nextRow (getRuleBits n) (generationRow (getRuleBits n) (numRow row) k)).
  change (Nat.iter (S k) (ruleRow n) row)
    with (ruleRow n (Nat.iter k (ruleRow n) row)).
  rewrite IHrow.
  split; [by apply nextRow_ruleRow |].
  split; [apply binary_ruleRow |]. by rewrite length_ruleRow.
Qed.

Lemma numRow_cells row :
  binary row → Forall (λ v, v = Num 0 ∨ v = Num 1) (numRow row).
Proof.
  unfold binary, numRow. rewrite Forall_fmap. intros Hbin.
  eapply Forall_impl; [exact Hbin |].
  intros x [-> | ->]; cbn; auto.
Qed.

(** In 1D mode with a non-negative rule number, every row that the history
    holds after [initGrid] and any number of steps has the width of the
    first row and only cells 0 and 1: no step ever writes [undefined] or
    [NaN] into the history. *)
Theorem history_rows_binary rnd win c st (k : nat) :
  mode c = OneD → 0 ≤ rule1D c →
  let cols := Z.to_nat (ceil_div (Z.of_N (innerWidth win)) (resolution c)) in
  ∃ sk, steps win k (initGrid rnd win OneD (resolution c) (setConfig c st)) = Ok sk
    ∧ ∀ r : list jsval, r ∈ historyRef sk →
        length r = (cols `max` 1)%nat
        ∧ Forall (λ v, v = Num 0 ∨ v = Num 1) r.
Proof.
  intros Hmode Hrule cols.
  destruct (history_after_steps rnd win c st k Hmode) as (sk & Hsk & _ & Hhist).
  exists sk. split; [done |]. intros r Hrow. rewrite Hhist in Hrow.
  apply list_elem_of_lookup in Hrow as [j Hj].
  rewrite lookup_drop in Hj. unfold generations in Hj.
  rewrite list_lookup_fmap in Hj.
  destruct (seq 0 (S k) !! _) as [i |]; [| done]. injection Hj as <-.
  replace (ceil_div (Z.of_N (innerWidth win)) (resolution c))
    with (Z.of_nat cols) by (unfold cols; apply Z2Nat.id, ceil_div_nonneg).
  rewrite firstRow_seedRow.
  destruct (generationRow_ruleRow (rule1D c) (seedRow cols) i Hrule)
    as (-> & Hbin & Hlen); [apply binary_seedRow |].
  split; [| by apply numRow_cells].
  unfold numRow. rewrite length_fmap, Hlen.
  destruct cols as [|m]; [done |]. cbn [seedRow].
  rewrite length_insert, length_replicate. lia.
Qed.

Lemma history_rows_binary_witness :
  mode rule90Config = OneD ∧ 0 ≤ rule1D rule90Config
  ∧ ∃ sk, steps smallWindow 9
            (initGrid blinkerSeed smallWindow OneD 8
               (setConfig rule90Config mountState)) = Ok sk
      ∧ ∀ r : list jsval, r ∈ historyRef sk → length r = 5%nat.
Proof.
  split; [reflexivity |]. split; [by vm_compute |].
  destruct (history_rows_binary blinkerSeed smallWindow rule90Config mountState 9)
    as (sk & Hsk & Hrows); [reflexivity | by vm_compute |].
  exists sk. split; [exact Hsk |]. intros r Hrow.
  exact (proj1 (Hrows r Hrow)).
Defined.

End Elementary.

(** ** Dimensions *)

Section Dimensions.

Implicit Types (st : State) (g : list (list Z)) (c : Config).

Lemma nextGrid_nil c : nextGrid c [] = [].
Proof. done. Qed.

Lemma nextGrid_lengths c g : length <$> nextGrid c g = length <$> g.
Proof.
  apply list_eq. intros y. rewrite !list_lookup_fmap.
  destruct (g !! y) as [row |] eqn:Hrow.
  - destruct (nextGrid_lookup c g y row Hrow) as (row' & -> & Hlen & _).
    cbn. by rewrite Hlen.
  - apply lookup_ge_None in Hrow.
    rewrite (proj2 (lookup_ge_None _ _)); [done |].
    by rewrite length_nextGrid.
Qed.

(** In 2D mode [step] never fails: it leaves [nextGrid] of the grid it
    found (which for the empty grid is the empty grid). *)
Lemma step_2D_total win st :
  mode (config st) = TwoD →
  ∃ st', step win st = Ok st'
    ∧ gridOf st' = nextGrid (config st) (gridOf st)
    ∧ config st' = config st.
Proof.
  intros Hmode. destruct (gridOf st) as [|r g] eqn:Hgrid.
  - exists st. rewrite step_2D_empty by done. by rewrite Hgrid.
  - destruct (step_2D win st Hmode) as (st' & Hst' & Hnext & _ & _ & _ & Hcfg & _).
    { by rewrite Hgrid. }
    exists st'. by rewrite <- Hgrid.
Qed.

Lemma step_grid_cases win st st' :
  step win st = Ok st' →
  (mode (config st) = OneD ∧ gridOf st' = gridOf st)
  ∨ (mode (config st) = TwoD ∧ gridOf st' = nextGrid (config st) (gridOf st)).
Proof.
  intros Hstep. destruct (mode (config st)) eqn:Hmode.
  - left. split; [done |].
    destruct (historyRef st) as [|r hist] eqn:Hhist.
    { by rewrite step_1D_empty in Hstep. }
    destruct (last_nonempty (r :: hist)) as [current Hlast]; [done |].
    rewrite <- Hhist in Hlast.
    destruct (step_1D win st current Hmode Hlast)
      as (s & Hs & _ & _ & _ & Hstore & Hg).
    rewrite Hs in Hstep. injection Hstep as <-.
    unfold gridOf. by rewrite Hstore, Hg.
  - right. split; [done |].
    destruct (step_2D_total win st Hmode) as (s & Hs & Hnext & _).
    rewrite Hs in Hstep. by injection Hstep as <-.
Qed.

Lemma interaction_lengths px py st :
  length <$> gridOf (handleCanvasInteraction px py st) = length <$> gridOf st.
Proof.
  destruct (mode (config st)) eqn:Hmode.
  { by rewrite interaction_1D. }
  destruct (decide (inBounds (gridOf st)
    (floor_div py (resolution (config st)))
    (floor_div px (resolution (config st))))) as [Hin | Hout].
  2: { by rewrite interaction_outside. }
  destruct (interaction_inside px py st Hmode Hin)
    as (l & row & age & Hl & Hrow & Hage & ->).
  apply list_eq. intros y. rewrite !list_lookup_fmap, !gridOf_lookup.
  cbn [gridRef rowStore setActivePreset setGrid].
  destruct (gridRef st !! y) as [l' |]; [| done]. cbn.
  rewrite rowAt_insert. case_decide as Heq; [| done].
  subst l'. by rewrite length_insert, Hrow.
Qed.

(** Neither [step] nor the pointer handler ever changes the dimensions of
    the 2D grid: the number of rows and the length of every row stay as
    they are, whatever the state. *)
Theorem dimensions_preserved st :
  (∀ win st', step win st = Ok st' →
     length <$> gridOf st' = length <$> gridOf st)
  ∧ (∀ px py,
     length <$> gridOf (handleCanvasInteraction px py st) = length <$> gridOf st).
Proof.
  split; [| intros; apply interaction_lengths].
  intros win st' Hstep.
  destruct (step_grid_cases win st st' Hstep) as [[_ ->] | [_ ->]]; [done |].
  apply nextGrid_lengths.
Qed.

Lemma rectangular_lengths (cols : nat) g g' :
  length <$> g' = length <$> g → rectangular cols g → rectangular cols g'.
Proof.
  unfold rectangular. intros Hlen Hrect.
  apply (Forall_fmap length (λ n, n = cols)).
  rewrite Hlen. by apply Forall_fmap.
Qed.

(** In every state the program can reach, all rows of the 2D grid have the
    same length. *)
Theorem reachable_rectangular st :
  reachable st → ∃ cols : nat, rectangular cols (gridOf st).
Proof.
  induction 1 as [| c st _ IH | p st _ IH | rnd win m res st _ IH
                  | win st st' _ IH Hstep | px py st _ IH].
  - exists 0%nat. constructor.
  - done.
  - done.
  - destruct m; [done |]. eexists. rewrite gridOf_initGrid_2D.
    unfold rectangular, seedGrid. rewrite Forall_fmap. apply Forall_true.
    intros y. cbn. by rewrite length_fmap, length_seq.
  - destruct IH as [cols Hrect]. exists cols.
    apply (rectangular_lengths cols (gridOf st)); [| done].
    destruct (step_grid_cases win st st' Hstep) as [[_ ->] | [_ ->]]; [done |].
    apply nextGrid_lengths.
  - destruct IH as [cols Hrect]. exists cols.
    apply (rectangular_lengths cols (gridOf st)); [| done].
    apply interaction_lengths.
Qed.

Lemma reachable_rectangular_witness :
  reachable blinkerState ∧ ∃ cols : nat, rectangular cols (gridOf blinkerState).
Proof.
  assert (reachable blinkerState) as Hreach
    by apply reach_initGrid, reach_mount.
  split; [exact Hreach |]. exact (reachable_rectangular blinkerState Hreach).
Defined.

End Dimensions.

(** ** A grid without live cells *)

Section DeadGrid.

Implicit Types (st : State) (g : list (list Z)) (c : Config).

Lemma aliveAt_allDead g (ny nx : option Z) : allDead g → aliveAt g ny nx = false.
Proof.
  intros Hdead. unfold aliveAt, index_opt, index.
  destruct ny as [ny |]; [| done]. destruct (ny <? 0); [done |].
  destruct (g !! Z.to_nat ny) as [row |] eqn:Hrow; [| done]. cbn.
  destruct nx as [nx |]; [| done]. destruct (nx <? 0); [done |].
  destruct (row !! Z.to_nat nx) as [a |] eqn:Ha; [| done].
  unfold allDead in Hdead. rewrite Forall_lookup in Hdead.
  specialize (Hdead _ _ Hrow). rewrite Forall_lookup in Hdead.
  specialize (Hdead _ _ Ha). apply Z.ltb_ge. lia.
Qed.

Lemma countNeighbors_allDead g (rows cols y x : Z) :
  allDead g → countNeighbors g rows cols y x = 0.
Proof.
  intros Hdead. unfold countNeighbors. cbn [foldl Z.eqb andb].
  by rewrite !aliveAt_allDead.
Qed.

Lemma nextGrid_allDead c g :
  0 ∉ birth2D c → allDead g → Forall (Forall (λ a, a = 0)) (nextGrid c g).
Proof.
  intros Hbirth Hdead. rewrite Forall_lookup. intros y row' Hy.
  rewrite Forall_lookup. intros x a' Hx.
  destruct (g !! y) as [row |] eqn:Hrow.
  2: { apply lookup_ge_None in Hrow. apply lookup_lt_Some in Hy.
       rewrite length_nextGrid in Hy. lia. }
  destruct (nextGrid_lookup c g y row Hrow) as (r & Hr & Hlen & Hcells).
  rewrite Hr in Hy. injection Hy as <-.
  destruct (row !! x) as [a |] eqn:Ha.
  2: { apply lookup_ge_None in Ha. apply lookup_lt_Some in Hx. lia. }
  rewrite (Hcells x a Ha) in Hx. injection Hx as <-.
  rewrite countNeighbors_allDead by done.
  unfold allDead in Hdead. rewrite Forall_lookup in Hdead.
  specialize (Hdead _ _ Hrow). rewrite Forall_lookup in Hdead.
  specialize (Hdead _ _ Ha). unfold nextAge.
  destruct (Z.ltb_spec 0 a) as [? | _]; [lia |].
  destruct (includes (birth2D c) 0) eqn:Hinc; [| done].
  by apply includes_elem_of in Hinc.
Qed.

Lemma zeros_allDead g : Forall (Forall (λ a, a = 0)) g → allDead g.
Proof.
  unfold allDead. intros Hz.
  eapply Forall_impl; [exact Hz |]. intros row Hrow.
  eapply Forall_impl; [exact Hrow |]. intros a ->. lia.
Qed.

(** When 0 is not in the birth set (the birth buttons offer 1..8 only), a
    2D grid without live cells stays without live cells for ever: every step
    succeeds, keeps the dimensions and leaves age 0 everywhere. *)
Theorem dead_grid_stays_dead win st (k : nat) :
  mode (config st) = TwoD → 0 ∉ birth2D (config st) → allDead (gridOf st) →
  ∃ sk, steps win k st = Ok sk
    ∧ allDead (gridOf sk)
    ∧ length <$> gridOf sk = length <$> gridOf st
    ∧ ((0 < k)%nat → Forall (Forall (λ a, a = 0)) (gridOf sk)).
Proof.
  revert st. induction k as [|k IH]; intros st Hmode Hbirth Hdead.
  - exists st. repeat split; [done.. | lia].
  - destruct (step_2D_total win st Hmode) as (s1 & Hs1 & Hnext & Hcfg).
    pose proof (nextGrid_allDead _ _ Hbirth Hdead) as Hzero.
    rewrite <- Hnext in Hzero.
    destruct (IH s1) as (sk & Hsk & Hdeadk & Hlen & Hz).
    + by rewrite Hcfg.
    + by rewrite Hcfg.
    + by apply zeros_allDead.
    + exists sk. cbn [steps]. rewrite Hs1.
      split; [done |]. split; [done |]. split.
      * rewrite Hlen, Hnext. apply nextGrid_lengths.
      * intros _. destruct k as [|k']; [| apply Hz; lia].
        cbn in Hsk. by injection Hsk as <-.
Qed.

Lemma dead_grid_stays_dead_witness :
  mode (config deadState) = TwoD
  ∧ (0 ∉ birth2D (config deadState))
  ∧ allDead (gridOf deadState)
  ∧ ∃ sk, steps smallWindow 4 deadState = Ok sk ∧ allDead (gridOf sk).
Proof.
  assert (0 ∉ birth2D (config deadState)) as Hbirth.
  { intros Hin. apply list_elem_of_In in Hin.
    vm_compute in Hin. by destruct Hin as [? | []]. }
  assert (allDead (gridOf deadState)) as Hdead.
  { apply zeros_allDead.
    change (gridOf deadState) with (replicate 5 (replicate 5 0)).
    apply Forall_replicate, Forall_replicate. reflexivity. }
  split; [reflexivity |]. split; [exact Hbirth |]. split; [exact Hdead |].
  destruct (dead_grid_stays_dead smallWindow deadState 4 eq_refl Hbirth Hdead)
    as (sk & Hsk & Hdeadk & _).
  exists sk. split; [exact Hsk | exact Hdeadk].
Defined.

End DeadGrid.

(** ** Ages do not steer the dynamics *)

Section Pattern.

Implicit Types (st : State) (g : list (list Z)) (c : Config).

Lemma bool_decide_ltb (a : Z) : bool_decide (0 < a) = (0 <? a).
Proof.
  destruct (Z.ltb_spec 0 a).
  - by apply bool_decide_eq_true.
  - apply bool_decide_eq_false. lia.
Qed.

(** [aliveAt] reads the live pattern only. *)
Lemma aliveAt_pattern g (ny nx : option Z) :
  aliveAt g ny nx
  = default false (index_opt (pattern g) ny ≫= λ row, index_opt row nx).
Proof.
  unfold aliveAt, pattern, index_opt, index.
  destruct ny as [ny |]; [| done]. destruct (ny <? 0); [done |].
  rewrite list_lookup_fmap.
  destruct (g !! Z.to_nat ny) as [row |]; [| done]. cbn.
  destruct nx as [nx |]; [| done]. destruct (nx <? 0); [done |].
  unfold liveRow. rewrite list_lookup_fmap.
  destruct (row !! Z.to_nat nx) as [a |]; [| done]. cbn.
  by rewrite bool_decide_ltb.
Qed.

Lemma countNeighbors_pattern g1 g2 (rows cols y x : Z) :
  pattern g1 = pattern g2 →
  countNeighbors g1 rows cols y x = countNeighbors g2 rows cols y x.
Proof.
  intros Hpat. unfold countNeighbors. cbn [foldl Z.eqb andb].
  by rewrite !(aliveAt_pattern g1), !(aliveAt_pattern g2), Hpat.
Qed.

Lemma nextAge_alive_iff c (age n : Z) :
  bool_decide (0 < nextAge c age n)
  = if 0 <? age then includes (survival2D c) n else includes (birth2D c) n.
Proof.
  rewrite bool_decide_ltb. unfold nextAge.
  destruct (Z.ltb_spec 0 age), (includes _ n); try done.
  apply Z.ltb_lt. lia.
Qed.

Lemma pattern_head g1 g2 :
  pattern g1 = pattern g2 →
  length g1 = length g2
  ∧ length (default [] (head g1)) = length (default [] (head g2)).
Proof.
  intros Hpat. split.
  - apply (f_equal length) in Hpat. unfold pattern in Hpat.
    by rewrite !length_fmap in Hpat.
  - destruct g1 as [|r1 g1], g2 as [|r2 g2]; try done.
    injection Hpat as Hrow _. apply (f_equal length) in Hrow.
    unfold liveRow in Hrow. by rewrite !length_fmap in Hrow.
Qed.

Lemma fmap_imap_ext {A B C D : Type} (h : B → C) (k : A → D)
    (f1 f2 : nat → A → B) (l1 l2 : list A) :
  k <$> l1 = k <$> l2 →
  (∀ i a1 a2, l1 !! i = Some a1 → l2 !! i = Some a2 →
     h (f1 i a1) = h (f2 i a2)) →
  h <$> imap f1 l1 = h <$> imap f2 l2.
Proof.
  intros Hshape Hext. apply list_eq. intros i.
  rewrite !list_lookup_fmap, !list_lookup_imap.
  assert (k <$> l1 !! i = k <$> l2 !! i) as Hi
    by (by rewrite <- !list_lookup_fmap, Hshape).
  destruct (l1 !! i) as [a1 |] eqn:H1, (l2 !! i) as [a2 |] eqn:H2; try done.
  cbn. f_equal. by apply Hext.
Qed.

Lemma pattern_nextGrid c g1 g2 :
  pattern g1 = pattern g2 →
  pattern (nextGrid c g1) = pattern (nextGrid c g2).
Proof.
  intros Hpat. destruct (pattern_head g1 g2 Hpat) as [Hrows Hcols].
  unfold pattern at 1 2. unfold nextGrid.
  apply (fmap_imap_ext liveRow liveRow); [exact Hpat |].
  intros y row1 row2 Hrow1 Hrow2.
  assert (liveRow row1 = liveRow row2) as Hy.
  { unfold pattern in Hpat. apply (f_equal (.!! y)) in Hpat.
    rewrite !list_lookup_fmap, Hrow1, Hrow2 in Hpat. by injection Hpat. }
  unfold liveRow at 1 2.
  apply (fmap_imap_ext _ (λ a, bool_decide (0 < a))); [exact Hy |].
  intros x a1 a2 Ha1 Ha2.
  assert (bool_decide (0 < a1) = bool_decide (0 < a2)) as Hx.
  { unfold liveRow in Hy. apply (f_equal (.!! x)) in Hy.
    rewrite !list_lookup_fmap, Ha1, Ha2 in Hy. by injection Hy. }
  rewrite !nextAge_alive_iff, <- !bool_decide_ltb, Hx, Hrows, Hcols.
  by rewrite (countNeighbors_pattern g1 g2).
Qed.

(** Which cells are alive after a 2D step depends only on which cells were
    alive before it, not on their ages: two states with the same
    configuration and the same live cells step to the same live cells. *)
Theorem ages_do_not_steer win st1 st2 :
  mode (config st1) = TwoD → config st1 = config st2 →
  pattern (gridOf st1) = pattern (gridOf st2) →
  ∃ st1' st2', step win st1 = Ok st1' ∧ step win st2 = Ok st2'
    ∧ pattern (gridOf st1') = pattern (gridOf st2').
Proof.
  intros Hmode Hcfg Hpat.
  destruct (step_2D_total win st1 Hmode) as (st1' & Hst1 & Hnext1 & _).
  destruct (step_2D_total win st2) as (st2' & Hst2 & Hnext2 & _).
  { by rewrite <- Hcfg. }
  exists st1', st2'. split; [done |]. split; [done |].
  rewrite Hnext1, Hnext2, <- Hcfg. by apply pattern_nextGrid.
Qed.

Lemma ages_do_not_steer_witness :
  mode (config blinkerState) = TwoD
  ∧ config blinkerState = config blinkerAged
  ∧ pattern (gridOf blinkerState) = pattern (gridOf blinkerAged)
  ∧ gridOf blinkerState ≠ gridOf blinkerAged
  ∧ ∃ st1' st2', step smallWindow blinkerState = Ok st1'
      ∧ step smallWindow blinkerAged = Ok st2'
      ∧ pattern (gridOf st1') = pattern (gridOf st2').
Proof.
  split; [reflexivity |]. split; [by vm_compute |]. split; [by vm_compute |].
  split; [by vm_compute |].
  apply (ages_do_not_steer smallWindow blinkerState blinkerAged);
    [reflexivity | by vm_compute | by vm_compute].
Defined.

End Pattern.

(** ** The cycle hue *)

Section CycleHue.

Implicit Types (st : State) (c : Config).

Lemma step_cycleHue win st st' :
  step win st = Ok st' →
  (mode (config st) = TwoD ∧ gridOf st = [] ∧ cycleHueRef st' = cycleHueRef st)
  ∨ ((mode (config st) = OneD ∨ gridOf st ≠ [])
     ∧ cycleHueRef st' = Z.rem (cycleHueRef st + 1) 360).
Proof.
  unfold step. destruct (mode (config st)).
  - destruct (last (historyRef st)); [| done]. intros [= <-]. right. auto.
  - destruct (Nat.eqb_spec (length (gridOf st)) 0) as [Hlen | Hlen].
    + intros [= <-]. left. by apply length_zero_iff_nil in Hlen.
    + destruct (allocRows _ _). intros [= <-]. right. split; [| done].
      right. intros Hnil. by rewrite Hnil in Hlen.
Qed.

Lemma cycleHue_handlers px py st :
  cycleHueRef (handleCanvasInteraction px py st) = cycleHueRef st.
Proof.
  unfold handleCanvasInteraction. destruct (mode (config st)); [done |].
  destruct (index (gridRef st) _) as [l |]; [| done].
  by destruct (index (rowAt (rowStore st) l) _).
Qed.

Lemma cycleHue_initGrid rnd win m res st :
  cycleHueRef (initGrid rnd win m res st) = cycleHueRef st.
Proof.
  unfold initGrid. cbv zeta. destruct m; [done |]. by destruct (allocRows _ _).
Qed.

Lemma reachable_cycleHue st : reachable st → 0 ≤ cycleHueRef st < 360.
Proof.
  induction 1 as [| c st _ IH | p st _ IH | rnd win m res st _ IH
                  | win st st' _ IH Hstep | px py st _ IH].
  - done.
  - done.
  - done.
  - by rewrite cycleHue_initGrid.
  - destruct (step_cycleHue win st st' Hstep) as [(_ & _ & ->) | [_ ->]]; [done |].
    rewrite Z.rem_mod_nonneg by lia. apply Z.mod_pos_bound. lia.
  - by rewrite cycleHue_handlers.
Qed.

(** The cycle hue of every reachable state lies in [0, 360), so in Cycle
    mode so does the hue of every colour; each call of [step] that gets
    past the empty-grid guard advances it by one modulo 360, and neither
    [initGrid] nor the pointer handler resets or moves it. *)
Theorem cycle_hue_in_range st :
  reachable st →
  0 ≤ cycleHueRef st < 360
  ∧ (colorMode (config st) = Cycle → ∀ age n,
       0 ≤ colorHue (getCellColor (config st) (cycleHueRef st) age n) < 360)
  ∧ (∀ win st', step win st = Ok st' →
       mode (config st) = OneD ∨ gridOf st ≠ [] →
       cycleHueRef st' = (cycleHueRef st + 1) mod 360)
  ∧ (∀ rnd win m res,
       cycleHueRef (initGrid rnd win m res st) = cycleHueRef st)
  ∧ (∀ px py, cycleHueRef (handleCanvasInteraction px py st) = cycleHueRef st).
Proof.
  intros Hreach. pose proof (reachable_cycleHue st Hreach) as Hrange.
  split; [done |]. split; [| split; [| split]].
  - intros Hmode age n. unfold getCellColor. by rewrite Hmode.
  - intros win st' Hstep Hcase.
    destruct (step_cycleHue win st st' Hstep)
      as [(Hmode & Hnil & _) | [_ ->]].
    + destruct Hcase as [Hone | Hne]; [congruence | done].
    + apply Z.rem_mod_nonneg; lia.
  - intros. apply cycleHue_initGrid.
  - intros. apply cycleHue_handlers.
Qed.

Lemma cycle_hue_in_range_witness :
  reachable blinkerAged ∧ 0 ≤ cycleHueRef blinkerAged < 360.
Proof.
  assert (reachable blinkerAged) as Hreach.
  { apply (reach_step smallWindow
      (match steps smallWindow 1 blinkerState with
       | Ok s => s | TypeError => blinkerState end)).
    - apply (reach_step smallWindow blinkerState).
      + apply reach_initGrid, reach_mount.
      + by vm_compute.
    - by vm_compute. }
  split; [exact Hreach |]. exact (proj1 (cycle_hue_in_range blinkerAged Hreach)).
Defined.

End CycleHue.

(** ** Clicking twice *)

Section DoubleClick.

Implicit Types (st : State) (g : list (list Z)).

Lemma inBounds_lengths g g' (y x : Z) :
  length <$> g' = length <$> g → inBounds g y x → inBounds g' y x.
Proof.
  intros Hlen [Hy Hx]. unfold inBounds.
  assert (length g' = length g) as Hrows.
  { apply (f_equal length) in Hlen. by rewrite !length_fmap in Hlen. }
  assert (length (default [] (g' !! Z.to_nat y))
          = length (default [] (g !! Z.to_nat y))) as Hcols.
  { apply (f_equal (.!! Z.to_nat y)) in Hlen.
    rewrite !list_lookup_fmap in Hlen.
    destruct (g' !! Z.to_nat y), (g !! Z.to_nat y); try done.
    by injection Hlen. }
  rewrite Hrows, Hcols. done.
Qed.

Lemma config_interaction px py st :
  config (handleCanvasInteraction px py st) = config st.
Proof.
  unfold handleCanvasInteraction. destruct (mode (config st)); [done |].
  destruct (index (gridRef st) _) as [l |]; [| done].
  by destruct (index (rowAt (rowStore st) l) _).
Qed.

(** Two clicks on the same cell inside the grid do not always undo each
    other: a dead cell is dead again and a cell of age 1 is back at age 1,
    with the whole grid as before, but an older live cell comes back with
    its age reset to 1. *)
Theorem double_click (px py : Z) st :
  mode (config st) = TwoD →
  let x := floor_div px (resolution (config st)) in
  let y := floor_div py (resolution (config st)) in
  inBounds (gridOf st) y x →
  let st2 := handleCanvasInteraction px py (handleCanvasInteraction px py st) in
  let old := cell (gridOf st) (Z.to_nat y) (Z.to_nat x) in
  cell (gridOf st2) (Z.to_nat y) (Z.to_nat x) = (if 0 <? old then 1 else 0)
  ∧ (old = 0 ∨ old = 1 → gridOf st2 = gridOf st).
Proof.
  intros Hmode x y Hin st2 old.
  destruct (interaction_inside px py st Hmode Hin)
    as (l & row & age & Hl & Hrow & Hage & Hst1).
  fold y in Hl. fold x in Hage, Hst1.
  set (st1 := handleCanvasInteraction px py st) in *.
  assert (config st1 = config st) as Hcfg by apply config_interaction.
  assert (inBounds (gridOf st1) y x) as Hin1.
  { eapply inBounds_lengths; [| exact Hin]. apply interaction_lengths. }
  destruct (interaction_inside px py st1) as (l1 & row1 & age1 & Hl1 & Hrow1 & Hage1 & Hst2).
  { by rewrite Hcfg. }
  { by rewrite Hcfg. }
  rewrite Hcfg in Hl1, Hage1, Hst2. fold y in Hl1. fold x in Hage1, Hst2.
  fold st2 in Hst2.
  assert (gridRef st1 = gridRef st) as Href by (by rewrite Hst1).
  assert (l1 = l) as -> by congruence.
  assert (row1 = <[Z.to_nat x := if 0 <? age then 0 else 1]> row) as Hrow1'.
  { rewrite Hrow1, Hst1. cbn [rowStore setActivePreset setGrid].
    rewrite rowAt_insert. by rewrite decide_True. }
  assert (Z.to_nat x < length row)%nat as Hx by by eapply lookup_lt_Some.
  assert (age1 = if 0 <? age then 0 else 1) as Hage1'.
  { rewrite Hrow1', list_lookup_insert_eq in Hage1 by done. congruence. }
  assert (old = age) as Hold.
  { unfold old. apply (cell_lookup _ _ _ row); [| done].
    rewrite gridOf_lookup, Hl. cbn. by rewrite Hrow. }
  assert (∀ y' : nat, gridOf st2 !! y'
    = (λ l', if decide (l = l')
             then <[Z.to_nat x := if 0 <? age1 then 0 else 1]> row1
             else rowAt (rowStore st) l')
      <$> gridRef st !! y') as Hrows.
  { intros y'. rewrite Hst2, gridOf_lookup.
    cbn [gridRef rowStore setActivePreset setGrid]. rewrite Href.
    destruct (gridRef st !! y') as [l' |]; [| done]. cbn.
    rewrite rowAt_insert. case_decide as Heq; [done |].
    rewrite Hst1. cbn [rowStore setActivePreset setGrid].
    rewrite rowAt_insert. by rewrite decide_False. }
  split.
  - apply (cell_lookup _ _ _
      (<[Z.to_nat x := if 0 <? age1 then 0 else 1]> row1)).
    + rewrite Hrows, Hl. cbn. by rewrite decide_True.
    + rewrite list_lookup_insert_eq
        by (rewrite Hrow1', length_insert; done).
      rewrite Hage1', Hold. by destruct (0 <? age).
  - intros Hcase. apply list_eq. intros y'.
    rewrite Hrows, gridOf_lookup.
    destruct (gridRef st !! y') as [l' |]; [| done]. cbn.
    case_decide as Heq; [| done]. subst l'. f_equal.
    rewrite Hrow1', list_insert_insert_eq, Hage1', <- Hrow.
    apply list_insert_id. rewrite Hage. f_equal.
    rewrite Hold in Hcase. by destruct Hcase as [-> | ->].
Qed.

Lemma double_click_witness :
  mode (config blinkerAged) = TwoD
  ∧ inBounds (gridOf blinkerAged) (floor_div 20 8) (floor_div 20 8)
  ∧ cell (gridOf blinkerAged) 2 2 = 3
  ∧ cell (gridOf (handleCanvasInteraction 20 20
                    (handleCanvasInteraction 20 20 blinkerAged))) 2 2 = 1.
Proof.
  assert (inBounds (gridOf blinkerAged) (floor_div 20 8) (floor_div 20 8))
    as Hin by (vm_compute; repeat split; discriminate).
  split; [reflexivity |]. split; [exact Hin |]. split; [by vm_compute |].
  exact (proj1 (double_click 20 20 blinkerAged eq_refl Hin)).
Defined.

End DoubleClick.

(** ** The birth and survival buttons *)

Section RuleButtons.

Lemma toggleNumber_absent (n : Z) (arr : list Z) :
  n ∉ arr → toggleNumber n arr = arr ++ [n].
Proof.
  intros Hn. unfold toggleNumber.
  destruct (includes arr n) eqn:Hinc; [| done].
  by apply includes_elem_of in Hinc.
Qed.

Lemma toggleNumber_present (n : Z) (arr : list Z) :
  n ∈ arr → toggleNumber n arr = filter (λ x, x ≠ n) arr.
Proof.
  intros Hn. unfold toggleNumber.
  destruct (includes arr n) eqn:Hinc; [done |].
  apply includes_elem_of in Hn. congruence.
Qed.

Lemma filter_absent (n : Z) (arr : list Z) :
  n ∉ arr → filter (λ x, x ≠ n) arr = arr.
Proof.
  induction arr as [|a arr IH]; intros Hn; [done |].
  rewrite filter_cons. rewrite not_elem_of_cons in Hn. destruct Hn as [Hne Hn].
  rewrite decide_True by done. by rewrite IH.
Qed.

(** A click on a birth or survival button flips the membership of its
    number and of no other; it removes every occurrence at once, never
    introduces a duplicate, and a second click restores the set (the very
    list when the number was absent at first). *)
Theorem toggleNumber_flips (n : Z) (arr : list Z) :
  (n ∈ toggleNumber n arr ↔ n ∉ arr)
  ∧ (∀ m, m ≠ n → (m ∈ toggleNumber n arr ↔ m ∈ arr))
  ∧ (NoDup arr → NoDup (toggleNumber n arr))
  ∧ (∀ m, m ∈ toggleNumber n (toggleNumber n arr) ↔ m ∈ arr)
  ∧ (n ∉ arr → toggleNumber n (toggleNumber n arr) = arr).
Proof.
  assert ((n ∈ toggleNumber n arr ↔ n ∉ arr)
    ∧ (∀ m, m ≠ n → (m ∈ toggleNumber n arr ↔ m ∈ arr))) as [Hself Hother].
  { destruct (decide (n ∈ arr)) as [Hin | Hout].
    - rewrite toggleNumber_present by done. split.
      + rewrite list_elem_of_filter. split; [by intros [? _] | done].
      + intros m Hm. rewrite list_elem_of_filter. split; [by intros [_ ?] | done].
    - rewrite toggleNumber_absent by done. split.
      + rewrite elem_of_app, list_elem_of_singleton. split; auto.
      + intros m Hm. rewrite elem_of_app, list_elem_of_singleton.
        split; [by intros [? | ?] | auto]. }
  split; [done |]. split; [done |]. split; [| split].
  - intros Hnodup. destruct (decide (n ∈ arr)) as [Hin | Hout].
    + rewrite toggleNumber_present by done. by apply NoDup_filter.
    + rewrite toggleNumber_absent by done. apply NoDup_app.
      split; [done |]. split; [| apply NoDup_singleton].
      intros m Hm ->%list_elem_of_singleton. done.
  - intros m. destruct (decide (m = n)) as [-> | Hne].
    + destruct (decide (n ∈ arr)) as [Hin | Hout].
      * rewrite (toggleNumber_absent n (toggleNumber n arr))
          by (by intros Hdup%Hself).
        rewrite elem_of_app, list_elem_of_singleton. split; auto.
      * split; [| done]. intros Hin.
        rewrite (toggleNumber_present n (toggleNumber n arr)) in Hin
          by (by apply Hself).
        apply list_elem_of_filter in Hin. by destruct Hin.
    + assert (∀ l, m ∈ toggleNumber n l ↔ m ∈ l) as Hm.
      { intros l. destruct (decide (n ∈ l)).
        - rewrite toggleNumber_present by done. rewrite list_elem_of_filter.
          split; [by intros [_ ?] | done].
        - rewrite toggleNumber_absent by done.
          rewrite elem_of_app, list_elem_of_singleton.
          split; [by intros [? | ?] | auto]. }
      by rewrite !Hm.
  - intros Hout. rewrite (toggleNumber_absent n arr) by done.
    rewrite toggleNumber_present by (apply elem_of_app; right; by left).
    rewrite filter_app, filter_absent by done.
    rewrite filter_cons, decide_False by (intros Hne; by apply Hne).
    by rewrite filter_nil, app_nil_r.
Qed.

End RuleButtons.

(** ** Colours by age *)

Section AgeColours.

(** In Age mode, for a base hue that is not negative and an age that is not
    negative, the hue is [(hue + 8 * age) mod 360], a value in [0, 360) that
    repeats every 45 generations; the lightness is 85 for a newborn and
    otherwise [max 40 (70 - age)], so it lies in 40..85 and stays at 40 from
    age 30 on; saturation is 80 and alpha 0.9. *)
Theorem age_colour c (cycleHue age n : Z) :
  colorMode c = Age → 0 ≤ hue c → 0 ≤ age →
  let col := getCellColor c cycleHue age n in
  colorHue col = (hue c + age * 8) mod 360
  ∧ 0 ≤ colorHue col < 360
  ∧ colorHue (getCellColor c cycleHue (age + 45) n) = colorHue col
  ∧ 40 ≤ colorLightness col ≤ 85
  ∧ (age = 1 → colorLightness col = 85)
  ∧ (age ≠ 1 → colorLightness col = Z.max 40 (70 - age))
  ∧ (30 ≤ age → colorLightness col = 40)
  ∧ colorSaturation col = 80
  ∧ colorAlpha col = "0.9"%string.
Proof.
  intros Hmode Hhue Hage. unfold getCellColor. rewrite Hmode.
  cbn -[Z.max].
  rewrite !Z.rem_mod_nonneg by lia.
  split; [done |]. split; [apply Z.mod_pos_bound; lia |].
  split.
  { replace (hue c + (age + 45) * 8) with (hue c + age * 8 + 1 * 360) by lia.
    by rewrite Z.mod_add by lia. }
  destruct (Z.eqb_spec age 1); repeat split; try done; lia.
Qed.

Lemma age_colour_witness :
  colorMode initialConfig = Age ∧ 0 ≤ hue initialConfig ∧ 0 ≤ 5
  ∧ colorHue (getCellColor initialConfig 0 5 0) = 220
  ∧ colorLightness (getCellColor initialConfig 0 5 0) = 65.
Proof.
  split; [reflexivity |]. split; [by vm_compute |]. split; [lia |].
  destruct (age_colour initialConfig 0 5 0)
    as (Hhue & _ & _ & _ & _ & Hl & _);
    [reflexivity | by vm_compute | lia |].
  split; [exact Hhue | apply Hl; lia].
Defined.

End AgeColours.

(** ** What [draw] paints *)

Section Drawing.

Implicit Types (st : State) (g : list (list Z)) (c : Config).

Lemma drawGrid_elem c (cycleHue : Z) g (cmd : Style * Rect) :
  cmd ∈ drawGrid c cycleHue g ↔
  ∃ (y x : nat) (row : list Z) (age : Z),
    g !! y = Some row ∧ row !! x = Some age ∧ 0 < age
    ∧ cmd = (CellStyle (getCellColor c cycleHue age (drawCount c g y x row)),
             cellRect (resolution c) y x).
Proof.
  unfold drawGrid. rewrite list_elem_of_join. split.
  - intros (cmds & Hcmd & (y & row & -> & Hrow)%elem_of_lookup_imap).
    apply list_elem_of_join in Hcmd
      as (cell1 & Hcmd & (x & age & -> & Hage)%elem_of_lookup_imap).
    destruct (Z.ltb_spec 0 age) as [Hpos | _]; [| by apply elem_of_nil in Hcmd].
    apply list_elem_of_singleton in Hcmd as ->.
    exists y, x, row, age. repeat split; done.
  - intros (y & x & row & age & Hrow & Hage & Hpos & ->).
    eexists. split; [| by apply (elem_of_lookup_imap_2 _ _ _ _ Hrow)].
    apply list_elem_of_join. eexists.
    split; [| by apply (elem_of_lookup_imap_2 _ _ _ _ Hage)].
    cbv beta. rewrite (proj2 (Z.ltb_lt 0 age) Hpos).
    apply list_elem_of_singleton. done.
Qed.

Lemma covers_cellRect (res : positive) (y x : nat) (px py : Z) :
  covers (cellRect res y x) px py →
  floor_div px res = Z.of_nat x ∧ floor_div py res = Z.of_nat y.
Proof.
  unfold covers, cellRect, floor_div. cbn. intros [Hx Hy]. split.
  - symmetry. apply (Z.div_unique _ _ _ (px - Z.of_nat x * Z.pos res)); lia.
  - symmetry. apply (Z.div_unique _ _ _ (py - Z.of_nat y * Z.pos res)); lia.
Qed.

(** In 2D mode [draw] paints, after the fading rectangle, one square per
    live cell and nothing else.  Every pixel it paints belongs to a live
    cell, namely the cell that the pointer handler addresses at that pixel,
    so that squares of different cells never overlap and a click on a
    painted pixel kills the cell painted there. *)
Theorem draw_paints_live_cells (canvasWidth canvasHeight : Z) st :
  mode (config st) = TwoD →
  (∀ y x : nat, 0 < cell (gridOf st) y x →
     ∃ style, style ≠ Fade
       ∧ (style, cellRect (resolution (config st)) y x)
         ∈ draw canvasWidth canvasHeight st)
  ∧ (∀ style r px py,
       (style, r) ∈ draw canvasWidth canvasHeight st → style ≠ Fade →
       covers r px py →
       let x := floor_div px (resolution (config st)) in
       let y := floor_div py (resolution (config st)) in
       inBounds (gridOf st) y x
       ∧ r = cellRect (resolution (config st)) (Z.to_nat y) (Z.to_nat x)
       ∧ 0 < cell (gridOf st) (Z.to_nat y) (Z.to_nat x)
       ∧ cell (gridOf (handleCanvasInteraction px py st))
           (Z.to_nat y) (Z.to_nat x) = 0).
Proof.
  intros Hmode. unfold draw. rewrite Hmode. split.
  - intros y x Halive.
    destruct (cell_alive_lookup _ _ _ Halive) as (row & Hrow & Hage).
    eexists. split; [| apply elem_of_cons; right; apply drawGrid_elem;
      exists y, x, row, (cell (gridOf st) y x); repeat split; done].
    done.
  - intros style r px py Hcmd Hstyle Hcov.
    set (x := floor_div px (resolution (config st))).
    set (y := floor_div py (resolution (config st))).
    apply elem_of_cons in Hcmd as [[= -> _] | Hcmd]; [done |].
    apply drawGrid_elem in Hcmd
      as (y0 & x0 & row & age & Hrow & Hage & Hpos & [= -> ->]).
    destruct (covers_cellRect _ _ _ _ _ Hcov) as [Hx Hy].
    fold x in Hx. fold y in Hy.
    assert (Z.to_nat y = y0) as Hy0 by lia.
    assert (Z.to_nat x = x0) as Hx0 by lia.
    rewrite Hy0, Hx0.
    assert (inBounds (gridOf st) y x) as Hin.
    { unfold inBounds. rewrite Hy0, Hrow. cbn.
      apply lookup_lt_Some in Hrow, Hage. lia. }
    split; [done |]. split; [done |].
    split; [by rewrite (cell_lookup _ _ _ _ _ Hrow Hage) |].
    destruct (interaction_inside px py st Hmode Hin)
      as (l & row1 & age1 & Hl & Hrow1 & Hage1 & ->).
    fold y in Hl. fold x in Hage1. rewrite Hy0 in Hl. rewrite Hx0 in Hage1.
    assert (row1 = row) as ->.
    { rewrite gridOf_lookup, Hl in Hrow. cbn in Hrow. congruence. }
    assert (age1 = age) as -> by congruence.
    fold x. rewrite Hx0.
    apply (cell_lookup _ _ _ (<[x0 := if 0 <? age then 0 else 1]> row)).
    + rewrite gridOf_lookup. cbn [gridRef rowStore setActivePreset setGrid].
      rewrite Hl. cbn. rewrite rowAt_insert. by rewrite decide_True.
    + rewrite list_lookup_insert_eq by by eapply lookup_lt_Some.
      by destruct (Z.ltb_spec 0 age); [| lia].
Qed.

Lemma draw_paints_live_cells_witness :
  mode (config blinkerState) = TwoD
  ∧ ∃ style, style ≠ Fade
      ∧ (style, cellRect 8 2 2) ∈ draw 40 40 blinkerState.
Proof.
  split; [reflexivity |].
  apply (proj1 (draw_paints_live_cells 40 40 blinkerState eq_refl) 2%nat 2%nat).
  by vm_compute.
Defined.

(** In Density mode the neighbour count that colours a live cell of a
    rectangular grid is the toroidal Moore count, the very count [step]
    applies the rule to: [draw] recounts with the cell's own row length
    where [step] uses the length of the first row. *)
Theorem draw_density_count (cycleHue : Z) c g (rows cols y x : nat) :
  colorMode c = Density → length g = rows → rectangular cols g →
  0 < cell g y x →
  (CellStyle (getCellColor c cycleHue (cell g y x) (mooreCount g rows cols y x)),
   cellRect (resolution c) y x) ∈ drawGrid c cycleHue g
  ∧ countNeighbors g (Z.of_nat rows)
      (Z.of_nat (length (default [] (head g)))) (Z.of_nat y) (Z.of_nat x)
    = mooreCount g rows cols y x.
Proof.
  intros Hmode Hrows Hrect Halive.
  destruct (cell_alive_lookup _ _ _ Halive) as (row & Hrow & Hage).
  assert (length row = cols) as Hlen.
  { unfold rectangular in Hrect. rewrite Forall_lookup in Hrect. eauto. }
  assert (0 < rows)%nat as Hrpos.
  { apply lookup_lt_Some in Hrow. lia. }
  assert (0 < cols)%nat as Hcpos.
  { apply lookup_lt_Some in Hage. lia. }
  assert (length (default [] (head g)) = cols) as Hhead.
  { destruct g as [| r0 g0]; [simpl in Hrows; lia |]. cbn.
    unfold rectangular in Hrect. by apply Forall_cons_1 in Hrect as [? _]. }
  split.
  - apply drawGrid_elem. exists y, x, row, (cell g y x).
    split; [done |]. split; [done |]. split; [done |].
    unfold drawCount. rewrite Hmode, Hrows, Hlen.
    by rewrite countNeighbors_moore by done.
  - rewrite Hhead. by apply countNeighbors_moore.
Qed.

Lemma draw_density_count_witness :
  colorMode (densityConfig 180) = Density
  ∧ length (gridOf blinkerState) = 5%nat
  ∧ rectangular 5 (gridOf blinkerState)
  ∧ 0 < cell (gridOf blinkerState) 2 2
  ∧ (CellStyle {| colorHue := 130; colorSaturation := 80;
                  colorLightness := 50; colorAlpha := "0.9" |},
     cellRect 8 2 2) ∈ drawGrid (densityConfig 180) 0 (gridOf blinkerState).
Proof.
  assert (rectangular 5 (gridOf blinkerState)) as Hrect
    by (vm_compute; repeat constructor).
  split; [reflexivity |]. split; [reflexivity |]. split; [exact Hrect |].
  split; [by vm_compute |].
  exact (proj1 (draw_density_count 0 (densityConfig 180) (gridOf blinkerState)
    5 5 2 2 eq_refl eq_refl Hrect ltac:(by vm_compute))).
Defined.

(** In 1D mode [draw] paints one square per cell equal to 1 of every row
    the history holds, at the row's position in the history, and nothing
    for any other cell. *)
Theorem draw_paints_history (canvasWidth canvasHeight : Z) st
    (style : Style) (r : Rect) :
  mode (config st) = OneD →
  ((style, r) ∈ draw canvasWidth canvasHeight st ∧ style ≠ Fade) ↔
  ∃ (y x : nat) (row : list jsval),
    historyRef st !! y = Some row ∧ row !! x = Some (Num 1)
    ∧ style = RowStyle (hue (config st)) y (length (historyRef st))
    ∧ r = cellRect (resolution (config st)) y x.
Proof.
  intros Hmode. unfold draw. rewrite Hmode, elem_of_cons.
  unfold drawHistory. rewrite list_elem_of_join. split.
  - intros [[[= -> _] | (cmds & Hcmd & Hrowcmds)] Hstyle]; [done |].
    apply elem_of_lookup_imap in Hrowcmds as (y & row & -> & Hrow).
    apply list_elem_of_join in Hcmd
      as (cell1 & Hcmd & (x & v & -> & Hv)%elem_of_lookup_imap).
    destruct v as [[| [p | p |] |] | |];
      try (by apply elem_of_nil in Hcmd).
    apply list_elem_of_singleton in Hcmd as [= -> ->].
    exists y, x, row. repeat split; done.
  - intros (y & x & row & Hrow & Hv & -> & ->). split; [| done]. right.
    eexists. split; [| by apply (elem_of_lookup_imap_2 _ _ _ _ Hrow)].
    apply list_elem_of_join. eexists.
    split; [| by apply (elem_of_lookup_imap_2 _ _ _ _ Hv)].
    apply list_elem_of_singleton. done.
Qed.

Lemma draw_paints_history_witness :
  mode (config rule90State) = OneD
  ∧ (RowStyle 180 0 1, cellRect 8 0 2) ∈ draw 40 40 rule90State.
Proof.
  split; [reflexivity |].
  apply (proj2 (draw_paints_history 40 40 rule90State
           (RowStyle 180 0 1) (cellRect 8 0 2) eq_refl)).
  exists 0%nat, 2%nat, (numRow [0; 0; 1; 0; 0]).
  repeat split; reflexivity.
Defined.

End Drawing.

(** ** The running application never steps an empty history *)

Section Application.

Implicit Types (st : State) (win : Window) (c : Config).

Lemma historyRef_interaction px py st :
  historyRef (handleCanvasInteraction px py st) = historyRef st.
Proof.
  unfold handleCanvasInteraction. destruct (mode (config st)); [done |].
  destruct (index (gridRef st) _) as [l |]; [| done].
  by destruct (index (rowAt (rowStore st) l) _).
Qed.

Lemma initGrid_history rnd win m res st :
  mode (config st) = m →
  mode (config (initGrid rnd win m res st)) = OneD →
  historyRef (initGrid rnd win m res st) ≠ [].
Proof.
  rewrite config_initGrid. intros <- Hmode. rewrite Hmode.
  by rewrite historyRef_initGrid_1D.
Qed.

Lemma appReachable_reachable st : appReachable st → reachable st.
Proof.
  induction 1 as [rnd win | rnd win st _ IH | win st st' _ IH Hstep
    | px py st _ IH | rnd win key p st _ IH | rnd win v st _ IH
    | rnd win m st _ IH | v st _ IH | v st _ IH | cm st _ IH | v st _ IH
    | n st _ IH | n st _ IH].
  - apply reach_initGrid, reach_mount.
  - by apply reach_initGrid.
  - by eapply reach_step.
  - by apply reach_interaction.
  - by apply reachable_selectPreset.
  - by apply reach_initGrid, reach_setConfig.
  - by apply reach_initGrid, reach_setActivePreset, reach_setConfig.
  - by apply reach_setConfig.
  - by apply reach_setConfig.
  - by apply reach_setConfig.
  - by apply reach_setActivePreset, reach_setConfig.
  - by apply reach_setActivePreset, reach_setConfig.
  - by apply reach_setActivePreset, reach_setConfig.
Qed.

(** Whenever the application is in 1D mode its history holds a row: every
    handler that changes the mode seeds the history in the same event. *)
Lemma appReachable_history st :
  appReachable st → mode (config st) = OneD → historyRef st ≠ [].
Proof.
  induction 1 as [rnd win | rnd win st _ IH | win st st' _ IH Hstep
    | px py st _ IH | rnd win key p st _ IH | rnd win v st _ IH
    | rnd win m st _ IH | v st _ IH | v st _ IH | cm st _ IH | v st _ IH
    | n st _ IH | n st _ IH]; try exact IH.
  - by apply initGrid_history.
  - by apply initGrid_history.
  - intros Hmode. destruct (mode (config st)) eqn:Hm.
    + destruct (historyRef st) as [|r hist] eqn:Hhist.
      { by rewrite step_1D_empty in Hstep. }
      destruct (last_nonempty (r :: hist)) as [current Hlast]; [done |].
      rewrite <- Hhist in Hlast.
      destruct (step_1D win st current Hm Hlast) as (s & Hs & Hh & _).
      rewrite Hs in Hstep. injection Hstep as <-. rewrite Hh.
      apply advance_nonempty. by rewrite Hhist.
    + destruct (step_2D_total win st Hm) as (s & Hs & _ & Hcfg).
      rewrite Hs in Hstep. injection Hstep as <-. congruence.
  - rewrite config_interaction, historyRef_interaction. exact IH.
  - unfold selectPreset. apply initGrid_history.
    cbn [config setConfig setActivePreset].
    by destruct (pmode p), (pbirth p), (psurvival p), (prule p).
  - unfold onResolutionChange. by apply initGrid_history.
  - unfold onModeClick. by apply initGrid_history.
Qed.

Lemma app_step_total win st :
  appReachable st → ∃ st', step win st = Ok st' ∧ appReachable st'.
Proof.
  intros Happ. destruct (mode (config st)) eqn:Hmode.
  - destruct (last_nonempty _ (appReachable_history st Happ Hmode))
      as [current Hlast].
    destruct (step_1D win st current Hmode Hlast) as (s & Hs & _).
    exists s. split; [done |]. by eapply app_step.
  - destruct (step_2D_total win st Hmode) as (s & Hs & _).
    exists s. split; [done |]. by eapply app_step.
Qed.

(** In the running application [step] never throws: from the state the
    mount effect leaves, through any sequence of frames, pointer events,
    preset selections, resizes and control changes, every further run of
    steps succeeds, because in 1D mode the history always holds a row. *)
Theorem app_never_throws st :
  appReachable st →
  reachable st
  ∧ (mode (config st) = OneD → historyRef st ≠ [])
  ∧ ∀ win (k : nat), ∃ sk, steps win k st = Ok sk ∧ appReachable sk.
Proof.
  intros Happ. split; [by apply appReachable_reachable |].
  split; [by apply appReachable_history |].
  intros win k. revert st Happ. induction k as [|k IH]; intros st Happ.
  - by exists st.
  - destruct (app_step_total win st Happ) as (s1 & Hs1 & Happ1).
    destruct (IH s1 Happ1) as (sk & Hsk & Happk).
    exists sk. cbn [steps]. by rewrite Hs1.
Qed.

Lemma app_never_throws_witness :
  appReachable (onModeClick blinkerSeed smallWindow OneD
                  (handleResize blinkerSeed smallWindow mountState))
  ∧ ∃ sk, steps smallWindow 3
            (onModeClick blinkerSeed smallWindow OneD
               (handleResize blinkerSeed smallWindow mountState)) = Ok sk.
Proof.
  assert (appReachable (onModeClick blinkerSeed smallWindow OneD
            (handleResize blinkerSeed smallWindow mountState))) as Happ
    by apply app_mode, app_mount.
  split; [exact Happ |].
  destruct (proj2 (proj2 (app_never_throws _ Happ)) smallWindow 3%nat)
    as (sk & Hsk & _).
  exists sk. exact Hsk.
Defined.

End Application.

(** ** Stepping before the first seed *)

Section BeforeInit.

Implicit Types (st : State) (win : Window).



End BeforeInit.
